(** * AlignmentCRF: the alignment distribution facade of synjax

    A shallow embedding of [synjax/_src/alignment_simple.py]: the
    constructor of [AlignmentCRF], its dispatching methods, and the
    non-monotone argmax callback built on a linear-sum-assignment solver.

    Float entries are exact rationals ([Q]) and int32 lengths are integers
    ([Z]); rounding and overflow are outside the model.  Arguments have the
    types of the source's annotations, so a call with an argument of another
    type is not represented, except for the event of
    [unnormalized_log_prob], which [argmax_and_max] fills dynamically. *)

From Stdlib Require Import List String Ascii Bool Arith ZArith QArith Lia.
From Stdlib Require Import Permutation.
Import ListNotations.

Local Close Scope Q_scope.
Local Open Scope string_scope.
Local Open Scope list_scope.
Local Open Scope nat_scope.

(** ** Exceptions and results

    A Python call either returns a value or raises.  The spec's
    ConfigurationError is the code's [ValueError]; its
    UnsupportedOperationError is [NotImplementedError]. *)

Inductive exn : Type :=
| ValueError (msg : string)
| NotImplementedError (msg : string)
| TypeError (msg : string)
| AttributeError (msg : string).

Inductive result (A : Type) : Type :=
| Ok (a : A)
| Raise (e : exn).

Arguments Ok {A} a.
Arguments Raise {A} e.

Definition bind {A B : Type} (c : result A) (k : A -> result B) : result B :=
  match c with
  | Ok a => k a
  | Raise e => Raise e
  end.

Notation "x <- c ;; k" := (bind c (fun x => k))
  (at level 61, c at next level, right associativity).

Definition is_ok {A : Type} (c : result A) : bool :=
  match c with Ok _ => true | Raise _ => false end.

(** ** Arrays

    An array is its shape together with its indexing function.  The two
    jaxtyping annotations of the source give the two array types: a
    ["*batch"] array is indexed by a batch index, a ["*batch row col"]
    array by a batch index, a row and a column. *)

Definition Shape : Type := list nat.
Definition index : Type := list nat.

Record batch_array (A : Type) : Type := mk_batch_array {
  bshape : Shape;
  elt : index -> A
}.

Arguments mk_batch_array {A} bshape elt.
Arguments bshape {A} b.
Arguments elt {A} b i.

Record grid_array (A : Type) : Type := mk_grid_array {
  batch_dims : Shape;
  nrows : nat;
  ncols : nat;
  cell : index -> nat -> nat -> A
}.

Arguments mk_grid_array {A} batch_dims nrows ncols cell.
Arguments batch_dims {A} g.
Arguments nrows {A} g.
Arguments ncols {A} g.
Arguments cell {A} g b i j.

(** [x.shape], so that [shape[-2] = nrows], [shape[-1] = ncols] and
    [shape[:-2] = batch_dims]. *)
Definition shape {A : Type} (x : grid_array A) : Shape :=
  batch_dims x ++ [nrows x; ncols x].

(** [jnp.full(shape, fill_value)]. *)
Definition full {A : Type} (s : Shape) (fill_value : A) : batch_array A :=
  mk_batch_array s (fun _ => fill_value).

(** [jnp.zeros_like(x)]. *)
Definition zeros_like {A : Type} (x : grid_array A) : grid_array Q :=
  mk_grid_array (batch_dims x) (nrows x) (ncols x) (fun _ _ _ => 0%Q).

(** The 2-D slice of [x] at batch index [b], as nested lists. *)
Definition matrix_at {A : Type} (x : grid_array A) (b : index) : list (list A) :=
  map (fun i => map (fun j => cell x b i j) (seq 0 (ncols x))) (seq 0 (nrows x)).

(** An array without batch axes from nested lists ([jnp.array(m)]),
    with [r] rows and [c] columns. *)
Definition of_matrix (r c : nat) (m : list (list Q)) : grid_array Q :=
  mk_grid_array [] r c (fun _ i j => nth j (nth i m []) 0%Q).

(** ** The monotone delegate *)

(** Modelled from the spec: the class [GeneralMonotoneAlignmentCRF] of
    [synjax._src.alignment_monotone_general], which is not part of the
    sources at hand.  The spec (section 6) describes it as an opaque object
    constructed from [log_potentials_horizontal], [log_potentials_vertical],
    [lengths_rows] and [lengths_cols]; the record keeps what the
    constructor receives. *)
Record GeneralMonotoneAlignmentCRF : Type := mk_GeneralMonotoneAlignmentCRF {
  log_potentials_horizontal : option (grid_array Q * grid_array Q);
  log_potentials_vertical : option (grid_array Q);
  lengths_rows : option (batch_array Z);
  lengths_cols : option (batch_array Z)
}.

(** ** The facade *)

Record AlignmentCRF : Type := mk_AlignmentCRF {
  _log_potentials : grid_array Q;
  _lengths : batch_array Z;
  _dist : option GeneralMonotoneAlignmentCRF;
  alignment_type : string
}.

Definition is_none {A : Type} (o : option A) : bool :=
  match o with None => true | Some _ => false end.

Definition monotone_one_to_many : string := "monotone_one_to_many".
Definition monotone_many_to_many : string := "monotone_many_to_many".
Definition non_monotone_one_to_one : string := "non_monotone_one_to_one".

Definition useless_distribution_msg : string :=
  "This is a useless distribution because there is less than two alignment possible.".
Definition only_lengths_rows_msg : string :=
  "Non-monotone alignment requires only lengths_rows.".
Definition square_matrix_msg : string :=
  "Non-monotone alignment requires square matrix.".

(** [AlignmentCRF.__init__].  The checks come in the order of the source:
    the degenerate one-to-many shape first, then the default lengths, then
    the dispatch on the alignment type. *)
Definition __init__ (log_potentials : grid_array Q)
    (lengths_rows lengths_cols : option (batch_array Z))
    (alignment_type : string) : result AlignmentCRF :=
  if is_none lengths_cols && is_none lengths_rows
     && (alignment_type =? monotone_one_to_many)%string
     && (ncols log_potentials <=? nrows log_potentials)
  then Raise (ValueError useless_distribution_msg)
  else
    let lengths :=
      match lengths_rows with
      | Some l => l
      | None => full (batch_dims log_potentials)
                     (Z.of_nat (ncols log_potentials))
      end in
    if (alignment_type =? monotone_one_to_many)%string then
      Ok (mk_AlignmentCRF log_potentials lengths
            (Some (mk_GeneralMonotoneAlignmentCRF
                     (Some (log_potentials, log_potentials)) None
                     lengths_rows lengths_cols))
            alignment_type)
    else if (alignment_type =? monotone_many_to_many)%string then
      Ok (mk_AlignmentCRF log_potentials lengths
            (Some (mk_GeneralMonotoneAlignmentCRF
                     (Some (log_potentials, log_potentials))
                     (Some log_potentials)
                     lengths_rows lengths_cols))
            alignment_type)
    else if (alignment_type =? non_monotone_one_to_one)%string then
      if negb (is_none lengths_cols) then
        Raise (ValueError only_lengths_rows_msg)
      else if negb (ncols log_potentials =? nrows log_potentials) then
        Raise (ValueError square_matrix_msg)
      else
        Ok (mk_AlignmentCRF log_potentials lengths None alignment_type)
    else
      Raise (ValueError (String.append "Unknown alignment type: " alignment_type)).

(** [event_shape] and [batch_shape]. *)
Definition event_shape (self : AlignmentCRF) : Shape :=
  [nrows (_log_potentials self); ncols (_log_potentials self)].

Definition batch_shape (self : AlignmentCRF) : Shape :=
  batch_dims (_log_potentials self).

(** ** Sums *)

Definition Zsum (l : list Z) : Z := fold_right Z.add 0%Z l.
Definition Qsum (l : list Q) : Q := fold_right Qplus 0%Q l.

(** [np.sum(..., dtype=np.float32)] of booleans: the number of [true]. *)
Definition count_true (l : list bool) : nat := List.length (filter (fun x => x) l).

Definition Q_of_bool (x : bool) : Q := if x then 1%Q else 0%Q.
Definition Q_of_nat (k : nat) : Q := inject_Z (Z.of_nat k).

(** ** The non-monotone argmax oracle *)

(** An entry of the weight matrix handed to the matching solver: a real
    score, or one of the two extreme weights that force or forbid a pair. *)
Inductive weight : Type :=
| Finite (x : Q)
| PosInf
| NegInf.

(** Modelled from the spec: the constant [INF] of [synjax._src.constants],
    which is not part of the sources at hand.  The spec (section 4.2) has
    invalid cells replaced by negative-infinity and the padding diagonal
    forced to positive-infinity, so [INF] is the positive extreme weight and
    [-INF] the negative one. *)
Definition INF : weight := PosInf.

Definition wopp (w : weight) : weight :=
  match w with
  | Finite x => Finite (- x)%Q
  | PosInf => NegInf
  | NegInf => PosInf
  end.

(** A ["*batch n"] array, such as [jnp.arange(n) < lenghts[..., None]]. *)
Record row_array (A : Type) : Type := mk_row_array {
  rdims : Shape;
  rlen : nat;
  relt : index -> nat -> A
}.

Arguments mk_row_array {A} rdims rlen relt.
Arguments rdims {A} r.
Arguments rlen {A} r.
Arguments relt {A} r b j.

(** [jnp.where(condition, x, y)] on arrays of one shape. *)
Definition where_ {A : Type} (condition : grid_array bool)
    (x y : grid_array A) : grid_array A :=
  mk_grid_array (batch_dims x) (nrows x) (ncols x)
    (fun b i j => if cell condition b i j then cell x b i j else cell y b i j).

(** A scalar broadcast against an array of the shape of [like]. *)
Definition broadcast {A B : Type} (like : grid_array B) (v : A) : grid_array A :=
  mk_grid_array (batch_dims like) (nrows like) (ncols like) (fun _ _ _ => v).

Definition grid_map {A B : Type} (f : A -> B) (x : grid_array A) : grid_array B :=
  mk_grid_array (batch_dims x) (nrows x) (ncols x) (fun b i j => f (cell x b i j)).

(** [jnp.eye(n)]. *)
Definition eye (i j : nat) : Q := Q_of_bool (i =? j).

(** Truth value of a float used as a condition: nonzero. *)
Definition truthy (x : Q) : bool := negb (Qeq_bool x 0%Q).

(** [one_hot = lambda x: np.arange(n) == x[..., None]]: row [k] of the
    result is the indicator of [x[k]] among [0 .. n-1]. *)
Definition one_hot (n : nat) (x : list nat) : list (list bool) :=
  map (fun xk => map (fun a => a =? xk) (seq 0 n)) x.

Definition entry (M : list (list weight)) (i j : nat) : weight :=
  nth j (nth i M []) NegInf.

(** Total weight of the pairs [(rows[k], cols[k])].  An extreme weight
    outweighs every sum of real scores, so a total is compared first by its
    number of positive extremes minus its number of negative ones
    ([total_omega]) and then by the sum of its real scores
    ([total_finite]). *)
Definition omega (w : weight) : Z :=
  match w with
  | Finite _ => 0%Z
  | PosInf => 1%Z
  | NegInf => (-1)%Z
  end.

Definition finite_part (w : weight) : Q :=
  match w with
  | Finite x => x
  | _ => 0%Q
  end.

Definition total_omega (M : list (list weight)) (rows cols : list nat) : Z :=
  Zsum (map (fun p => omega (entry M (fst p) (snd p))) (combine rows cols)).

Definition total_finite (M : list (list weight)) (rows cols : list nat) : Q :=
  Qsum (map (fun p => finite_part (entry M (fst p) (snd p))) (combine rows cols)).

Definition weight_le (M : list (list weight))
    (rows1 cols1 rows2 cols2 : list nat) : Prop :=
  (total_omega M rows1 cols1 < total_omega M rows2 cols2)%Z
  \/ (total_omega M rows1 cols1 = total_omega M rows2 cols2
      /\ (total_finite M rows1 cols1 <= total_finite M rows2 cols2)%Q).

(** Modelled from the spec: the contract of the matching solver
    ([scipy.optimize.linear_sum_assignment] with [maximize=True]), which is
    not part of the sources at hand.  The spec (section 6): given one square
    matrix it returns two equal-length index sequences, a row assignment and
    a column assignment, which maximise the total assigned weight. *)
Definition maximum_weight_matching (M : list (list weight))
    (out : list nat * list nat) : Prop :=
  Permutation (fst out) (seq 0 (List.length M))
  /\ Permutation (snd out) (seq 0 (List.length M))
  /\ forall rows' cols',
       Permutation rows' (seq 0 (List.length M)) ->
       Permutation cols' (seq 0 (List.length M)) ->
       weight_le M rows' cols' (fst out) (snd out).

Section Oracle.

(** [partial(scipy.optimize.linear_sum_assignment, maximize=True)]. *)
Variable linear_sum_assignment : list (list weight) -> list nat * list nat.

(** [_numpy_non_monotone_align]: the solver runs on every matrix of the
    batch ([np.vectorize] with signature ["(n, n)->(n),(n)"]); entry
    [(a, c)] of the result counts the positions [k] with [i[k] = a] and
    [j[k] = c]. *)
Definition _numpy_non_monotone_align (log_potentials : grid_array weight)
    : grid_array Q :=
  let n := ncols log_potentials in
  mk_grid_array (batch_dims log_potentials) (nrows log_potentials)
    (ncols log_potentials)
    (fun b a c =>
       let (i, j) := linear_sum_assignment (matrix_at log_potentials b) in
       Q_of_nat (count_true
         (map (fun p => nth a (fst p) false && nth c (snd p) false)
              (combine (one_hot n i) (one_hot n j))))).

(** The arrays of [_jax_non_monotone_align_callback], in its order.  Its
    annotations make [log_potentials] a ["*b n n"] array and [lenghts] a
    ["*b"] array with the same batch axes. *)
Definition length_mask (n : nat) (lenghts : batch_array Z) : row_array bool :=
  mk_row_array (bshape lenghts) n
    (fun b j => (Z.of_nat j <? elt lenghts b)%Z).

Definition square_mask (mask : row_array bool) : grid_array bool :=
  mk_grid_array (rdims mask) (rlen mask) (rlen mask)
    (fun b i j => relt mask b i && relt mask b j).

Definition diag_mask (n : nat) (lenghts : batch_array Z) : grid_array Q :=
  mk_grid_array (bshape lenghts) n n
    (fun b i j =>
       (Q_of_bool (elt lenghts b <=? Z.of_nat j)%Z * eye i j)%Q).

Definition masked_log_potentials (log_potentials : grid_array Q)
    (lenghts : batch_array Z) : grid_array weight :=
  let n := ncols log_potentials in
  let mask := square_mask (length_mask n lenghts) in
  let log_potentials :=
    where_ mask (grid_map Finite log_potentials)
           (broadcast log_potentials (wopp INF)) in
  let diag_mask := diag_mask n lenghts in
  where_ (grid_map truthy diag_mask) (broadcast log_potentials INF)
         log_potentials.

(** [_jax_non_monotone_align_callback]: the primal output together with
    the backward rule declared through [jax.custom_gradient]. *)
Definition _jax_non_monotone_align_callback (log_potentials : grid_array Q)
    (lenghts : batch_array Z)
    : grid_array Q
      * (grid_array Q -> grid_array Q * option (batch_array Z)) :=
  let n := ncols log_potentials in
  let mask := square_mask (length_mask n lenghts) in
  let log_potentials := masked_log_potentials log_potentials lenghts in
  let alignments := _numpy_non_monotone_align log_potentials in
  (mk_grid_array (batch_dims alignments) (nrows alignments) (ncols alignments)
     (fun b i j => (cell alignments b i j * Q_of_bool (cell mask b i j))%Q),
   fun g => (zeros_like log_potentials, None)).

End Oracle.

(** ** Values that flow through the facade

    [argmax_and_max] builds tuples and hands one on as an event, so the
    values it handles are dynamic: arrays, the instance itself, tuples. *)
#[warnings="-register-all"]
Inductive pyval : Type :=
| VGrid (a : grid_array Q)
| VBatch (a : batch_array Q)
| VSelf (o : AlignmentCRF)
| VTuple (l : list pyval).

(** The interface of the delegate: the methods the facade forwards to,
    with the arguments the facade passes.  Their code belongs to the
    monotone dynamic-programming engine and stays abstract. *)
Class MonotoneEngine (Key kwargs : Type) : Type := {
  dist_sample : GeneralMonotoneAlignmentCRF -> Key -> Shape + Z -> kwargs
                -> result (grid_array Q);
  dist_normalize_log_probs : GeneralMonotoneAlignmentCRF -> batch_array Q
                             -> result (batch_array Q);
  dist_log_prob : GeneralMonotoneAlignmentCRF -> grid_array Q -> kwargs
                  -> result (batch_array Q);
  dist_unnormalized_log_prob : GeneralMonotoneAlignmentCRF -> grid_array Q
                               -> kwargs -> result (batch_array Q);
  dist_log_partition : GeneralMonotoneAlignmentCRF -> kwargs
                       -> result (batch_array Q);
  dist_marginals_for_template_variables :
    GeneralMonotoneAlignmentCRF -> kwargs -> result (grid_array Q);
  dist_marginals : GeneralMonotoneAlignmentCRF -> kwargs
                   -> result (grid_array Q);
  dist_argmax : GeneralMonotoneAlignmentCRF -> kwargs -> result (grid_array Q);
  dist_top_k : GeneralMonotoneAlignmentCRF -> Z -> kwargs
               -> result (grid_array Q * batch_array Q);
  dist_entropy : GeneralMonotoneAlignmentCRF -> kwargs
                 -> result (batch_array Q);
  dist_cross_entropy : GeneralMonotoneAlignmentCRF
                       -> option GeneralMonotoneAlignmentCRF -> kwargs
                       -> result (batch_array Q);
  dist_kl_divergence : GeneralMonotoneAlignmentCRF
                       -> option GeneralMonotoneAlignmentCRF -> kwargs
                       -> result (batch_array Q)
}.

(** [jnp.einsum("...ij,...ij->...", x, y)] on arrays of one shape. *)
Definition einsum (x y : grid_array Q) : batch_array Q :=
  mk_batch_array (batch_dims x)
    (fun b =>
       Qsum (map (fun i =>
               Qsum (map (fun j => (cell x b i j * cell y b i j)%Q)
                         (seq 0 (ncols x))))
             (seq 0 (nrows x)))).

Definition newline : string := String (ascii_of_nat 10) EmptyString.

Definition sample_msg : string :=
  String.append "Non-monotone distribution doesn't support sampling."
    (String.append newline
       "Instead, you can try perturb-and-map by injecting the noise.").
Definition normalize_log_probs_msg : string :=
  "Non-monotone distribution doesn't support normalization.".
Definition log_prob_msg : string :=
  "Non-monotone alignment doesn't support normalized log-probs.".
Definition log_partition_msg : string :=
  "Non-monotone alignment doesn't support log-partition.".
Definition marginals_msg : string :=
  "Non-monotone alignment doesn't support marginals.".
Definition top_k_msg : string :=
  "Non-monotone alignment doesn't support top-k.".
Definition entropy_msg : string :=
  "Non-monotone alignment doesn't support entropy.".
Definition cross_entropy_msg : string :=
  "Non-monotone alignment doesn't support cross-entropy.".
Definition kl_divergence_msg : string :=
  "Non-monotone alignment doesn't support KL divergence.".

(** What the [typed] decorator raises when [event] is not a float array. *)
Definition event_type_msg : string :=
  "event is not an instance of Float[Array, '*b n m']".

Section Facade.

Context {Key kwargs : Type} {engine : MonotoneEngine Key kwargs}.
Variable linear_sum_assignment : list (list weight) -> list nat * list nat.

(** [self._dist.attr(...)]: an attribute of [None] cannot be fetched. *)
Definition with_dist {A : Type} (self : AlignmentCRF) (attr : string)
    (k : GeneralMonotoneAlignmentCRF -> result A) : result A :=
  match _dist self with
  | Some d => k d
  | None =>
      Raise (AttributeError
               (String.append "'NoneType' object has no attribute " attr))
  end.

Definition is_non_monotone (self : AlignmentCRF) : bool :=
  (alignment_type self =? non_monotone_one_to_one)%string.

Definition sample (self : AlignmentCRF) (key : Key) (sample_shape : Shape + Z)
    (kw : kwargs) : result (grid_array Q) :=
  if is_non_monotone self then Raise (NotImplementedError sample_msg)
  else with_dist self "sample" (fun d => dist_sample d key sample_shape kw).

Definition normalize_log_probs (self : AlignmentCRF) (scores : batch_array Q)
    : result (batch_array Q) :=
  if is_non_monotone self then
    Raise (NotImplementedError normalize_log_probs_msg)
  else with_dist self "normalize_log_probs"
         (fun d => dist_normalize_log_probs d scores).

Definition log_prob (self : AlignmentCRF) (event : grid_array Q) (kw : kwargs)
    : result (batch_array Q) :=
  if is_non_monotone self then Raise (NotImplementedError log_prob_msg)
  else with_dist self "log_prob" (fun d => dist_log_prob d event kw).

(** [unnormalized_log_prob].  The [typed] decorator checks [event] against
    [Float[Array, "*b n m"]] before the body runs; the check is modelled
    here because [argmax_and_max] passes something else than an array. *)
Definition unnormalized_log_prob (self : AlignmentCRF) (event : pyval)
    (kw : kwargs) : result (batch_array Q) :=
  match event with
  | VGrid event =>
      if is_non_monotone self then
        Ok (einsum event (_log_potentials self))
      else with_dist self "unnormalized_log_prob"
             (fun d => dist_unnormalized_log_prob d event kw)
  | _ => Raise (TypeError event_type_msg)
  end.

Definition log_partition (self : AlignmentCRF) (kw : kwargs)
    : result (batch_array Q) :=
  if is_non_monotone self then Raise (NotImplementedError log_partition_msg)
  else with_dist self "log_partition" (fun d => dist_log_partition d kw).

Definition marginals_for_template_variables (self : AlignmentCRF)
    (kw : kwargs) : result (grid_array Q) :=
  if is_non_monotone self then Raise (NotImplementedError marginals_msg)
  else with_dist self "marginals_for_template_variables"
         (fun d => dist_marginals_for_template_variables d kw).

Definition marginals (self : AlignmentCRF) (kw : kwargs)
    : result (grid_array Q) :=
  if is_non_monotone self then Raise (NotImplementedError marginals_msg)
  else with_dist self "marginals" (fun d => dist_marginals d kw).

(** [argmax]: a call of the [custom_gradient] function gives its primal
    output. *)
Definition argmax (self : AlignmentCRF) (kw : kwargs) : result (grid_array Q) :=
  if is_non_monotone self then
    Ok (fst (_jax_non_monotone_align_callback linear_sum_assignment
               (_log_potentials self) (_lengths self)))
  else with_dist self "argmax" (fun d => dist_argmax d kw).

(** [argmax_and_max]: [event] is bound to the pair [(self.argmax(), self)],
    as the source writes it, and that pair is what goes on to
    [unnormalized_log_prob] and into the result. *)
Definition argmax_and_max (self : AlignmentCRF) (kw : kwargs) : result pyval :=
  a <- argmax self kw ;;
  let event := VTuple [VGrid a; VSelf self] in
  s <- unnormalized_log_prob self event kw ;;
  Ok (VTuple [event; VBatch s]).

Definition top_k (self : AlignmentCRF) (k : Z) (kw : kwargs)
    : result (grid_array Q * batch_array Q) :=
  if is_non_monotone self then Raise (NotImplementedError top_k_msg)
  else with_dist self "top_k" (fun d => dist_top_k d k kw).

Definition entropy (self : AlignmentCRF) (kw : kwargs)
    : result (batch_array Q) :=
  if is_non_monotone self then Raise (NotImplementedError entropy_msg)
  else with_dist self "entropy" (fun d => dist_entropy d kw).

Definition cross_entropy (self other : AlignmentCRF) (kw : kwargs)
    : result (batch_array Q) :=
  if is_non_monotone self then Raise (NotImplementedError cross_entropy_msg)
  else with_dist self "cross_entropy"
         (fun d => dist_cross_entropy d (_dist other) kw).

Definition kl_divergence (self other : AlignmentCRF) (kw : kwargs)
    : result (batch_array Q) :=
  if is_non_monotone self then Raise (NotImplementedError kl_divergence_msg)
  else with_dist self "kl_divergence"
         (fun d => dist_kl_divergence d (_dist other) kw).

(** *** Calls on an instance

    No method body assigns to an attribute of [self]: a call leaves the
    instance as it found it and yields a result. *)
Inductive call : Type :=
| call_sample (key : Key) (sample_shape : Shape + Z) (kw : kwargs)
| call_normalize_log_probs (scores : batch_array Q)
| call_log_prob (event : grid_array Q) (kw : kwargs)
| call_unnormalized_log_prob (event : pyval) (kw : kwargs)
| call_log_partition (kw : kwargs)
| call_marginals_for_template_variables (kw : kwargs)
| call_marginals (kw : kwargs)
| call_argmax (kw : kwargs)
| call_argmax_and_max (kw : kwargs)
| call_top_k (k : Z) (kw : kwargs)
| call_entropy (kw : kwargs)
| call_cross_entropy (other : AlignmentCRF) (kw : kwargs)
| call_kl_divergence (other : AlignmentCRF) (kw : kwargs).

Definition as_val {A : Type} (inj : A -> pyval) (r : result A) : result pyval :=
  x <- r ;; Ok (inj x).

Definition pair_val (p : grid_array Q * batch_array Q) : pyval :=
  VTuple [VGrid (fst p); VBatch (snd p)].

Definition invoke (self : AlignmentCRF) (c : call)
    : AlignmentCRF * result pyval :=
  (self,
   match c with
   | call_sample key sample_shape kw =>
       as_val VGrid (sample self key sample_shape kw)
   | call_normalize_log_probs scores =>
       as_val VBatch (normalize_log_probs self scores)
   | call_log_prob event kw => as_val VBatch (log_prob self event kw)
   | call_unnormalized_log_prob event kw =>
       as_val VBatch (unnormalized_log_prob self event kw)
   | call_log_partition kw => as_val VBatch (log_partition self kw)
   | call_marginals_for_template_variables kw =>
       as_val VGrid (marginals_for_template_variables self kw)
   | call_marginals kw => as_val VGrid (marginals self kw)
   | call_argmax kw => as_val VGrid (argmax self kw)
   | call_argmax_and_max kw => argmax_and_max self kw
   | call_top_k k kw => as_val pair_val (top_k self k kw)
   | call_entropy kw => as_val VBatch (entropy self kw)
   | call_cross_entropy other kw =>
       as_val VBatch (cross_entropy self other kw)
   | call_kl_divergence other kw =>
       as_val VBatch (kl_divergence self other kw)
   end).

(** The instance after a sequence of calls. *)
Fixpoint after_calls (self : AlignmentCRF) (cs : list call) : AlignmentCRF :=
  match cs with
  | [] => self
  | c :: cs' => after_calls (fst (invoke self c)) cs'
  end.

End Facade.

(** ** Vocabulary of the statements *)

(** The cells of an [n] by [m] grid. *)
Definition cells (n m : nat) : list (nat * nat) := list_prod (seq 0 n) (seq 0 m).

(** The product-sum in the spec's words: the sum over all cells [(i, j)] of
    [event[i, j] * log_potentials[i, j]], for the batch element [b]. *)
Definition product_sum (event log_potentials : grid_array Q) (b : index) : Q :=
  Qsum (map (fun p => (cell event b (fst p) (snd p)
                       * cell log_potentials b (fst p) (snd p))%Q)
            (cells (nrows log_potentials) (ncols log_potentials))).

(** The validity mask of the callback at a cell. *)
Definition valid_cell (L : Z) (i j : nat) : bool :=
  (Z.of_nat i <? L)%Z && (Z.of_nat j <? L)%Z.

(** The properties of a permutation matrix restricted to length [L], for
    the [n] by [n] slice of [out] at batch index [b]. *)
Definition restricted_permutation_matrix (out : grid_array Q) (b : index)
    (n : nat) (L : Z) : Prop :=
  (forall i, i < n -> (Z.of_nat i < L)%Z ->
     exists j, j < n /\ (Z.of_nat j < L)%Z
               /\ (cell out b i j == 1)%Q
               /\ forall j', j' < n -> (cell out b i j' == 1)%Q -> j' = j)
  /\ (forall j, j < n -> (Z.of_nat j < L)%Z ->
        exists i, i < n /\ (Z.of_nat i < L)%Z
                  /\ (cell out b i j == 1)%Q
                  /\ forall i', i' < n -> (cell out b i' j == 1)%Q -> i' = i)
  /\ (forall i j, i < n -> j < n ->
        ((L <= Z.of_nat i)%Z \/ (L <= Z.of_nat j)%Z) ->
        (cell out b i j == 0)%Q)
  /\ (forall i j, i < n -> j < n ->
        (cell out b i j == 0)%Q \/ (cell out b i j == 1)%Q).

(** The largest [omega] a cell of row [i] can have. *)
Definition row_bound (L : Z) (i : nat) : Z :=
  if (L <=? Z.of_nat i)%Z then 1%Z else 0%Z.

(** Row [i] is matched inside its own region: a padding row to itself, a
    valid row to a valid column. *)
Definition stays_in_block (L : Z) (i j : nat) : Prop :=
  ((L <= Z.of_nat i)%Z -> j = i) /\ ((Z.of_nat i < L)%Z -> (Z.of_nat j < L)%Z).

(** The number of pairs of an assignment equal to [(a, c)]. *)
Definition count_pair (a c : nat) (l : list (nat * nat)) : nat :=
  count_true (map (fun p => (a =? fst p) && (c =? snd p)) l).

(** The delegate [__init__] builds for a monotone alignment type: both
    horizontal potentials are the log-potentials, the vertical potentials
    are absent for one-to-many, and the lengths are the caller's own. *)
Definition monotone_delegate (log_potentials : grid_array Q)
    (lengths_rows lengths_cols : option (batch_array Z))
    (alignment_type : string) : GeneralMonotoneAlignmentCRF :=
  mk_GeneralMonotoneAlignmentCRF
    (Some (log_potentials, log_potentials))
    (if (alignment_type =? monotone_one_to_many)%string then None
     else Some log_potentials)
    lengths_rows lengths_cols.


(** A length brought into the range [0 .. n]. *)
Definition clamp (L : Z) (n : nat) : Z := Z.max 0 (Z.min L (Z.of_nat n)).

(** The total log-potential of the pairs of an assignment that lie in the
    valid block of the batch element [b]. *)
Definition matched_score (log_potentials : grid_array Q) (b : index) (L : Z)
    (l : list (nat * nat)) : Q :=
  Qsum (map (fun p => (Q_of_bool (valid_cell L (fst p) (snd p))
                       * cell log_potentials b (fst p) (snd p))%Q) l).

(** A pair of index sequences that assigns every row and every column of
    an [n] by [n] matrix once. *)
Definition perfect_matching (n : nat) (out : list nat * list nat) : Prop :=
  Permutation (fst out) (seq 0 n) /\ Permutation (snd out) (seq 0 n).

(** The sum of all entries of the slice of [out] at batch index [b]. *)
Definition total_mass (out : grid_array Q) (b : index) : Q :=
  Qsum (map (fun i => Qsum (map (fun j => cell out b i j) (seq 0 (ncols out))))
            (seq 0 (nrows out))).

(** ** Concrete inputs *)

(** An engine that refuses every call; it instantiates the facade where the
    delegate plays no part. *)
Definition refusing_engine : MonotoneEngine unit unit := {|
  dist_sample := fun _ _ _ _ => Raise (NotImplementedError "sample");
  dist_normalize_log_probs := fun _ _ => Raise (NotImplementedError "normalize_log_probs");
  dist_log_prob := fun _ _ _ => Raise (NotImplementedError "log_prob");
  dist_unnormalized_log_prob := fun _ _ _ => Raise (NotImplementedError "unnormalized_log_prob");
  dist_log_partition := fun _ _ => Raise (NotImplementedError "log_partition");
  dist_marginals_for_template_variables := fun _ _ => Raise (NotImplementedError "marginals_for_template_variables");
  dist_marginals := fun _ _ => Raise (NotImplementedError "marginals");
  dist_argmax := fun _ _ => Raise (NotImplementedError "argmax");
  dist_top_k := fun _ _ _ => Raise (NotImplementedError "top_k");
  dist_entropy := fun _ _ => Raise (NotImplementedError "entropy");
  dist_cross_entropy := fun _ _ _ => Raise (NotImplementedError "cross_entropy");
  dist_kl_divergence := fun _ _ _ => Raise (NotImplementedError "kl_divergence")
|}.

(** A solver that always answers with the identity assignment. *)
Definition identity_assignment (M : list (list weight)) : list nat * list nat :=
  (seq 0 (List.length M), seq 0 (List.length M)).

(** The 2x2 log-potentials [[1,0],[0,1]] and the 1x2 and 2x3 zero ones. *)
Definition eye2 : grid_array Q := of_matrix 2 2 [[1%Q; 0%Q]; [0%Q; 1%Q]].
Definition zeros_1x2 : grid_array Q := of_matrix 1 2 [[0%Q; 0%Q]].
Definition zeros_2x3 : grid_array Q :=
  of_matrix 2 3 [[0%Q; 0%Q; 0%Q]; [0%Q; 0%Q; 0%Q]].

(** The non-monotone instance over [eye2] with default lengths. *)
Definition eye2_crf : AlignmentCRF :=
  mk_AlignmentCRF eye2 (full [] 2%Z) None non_monotone_one_to_one.

(** [needle] occurs in [hay]. *)
Fixpoint mentions (needle hay : string) : bool :=
  prefix needle hay
  || match hay with
     | EmptyString => false
     | String _ hay' => mentions needle hay'
     end.

(** * Construction *)

Lemma eqb_non_monotone_one_to_many :
  (non_monotone_one_to_one =? monotone_one_to_many)%string = false.
Proof. reflexivity. Qed.

Lemma eqb_non_monotone_many_to_many :
  (non_monotone_one_to_one =? monotone_many_to_many)%string = false.
Proof. reflexivity. Qed.

Lemma init_non_monotone (lp : grid_array Q) (lr lc : option (batch_array Z)) :
  __init__ lp lr lc non_monotone_one_to_one =
  if negb (is_none lc) then Raise (ValueError only_lengths_rows_msg)
  else if negb (ncols lp =? nrows lp) then Raise (ValueError square_matrix_msg)
  else Ok (mk_AlignmentCRF lp
             (match lr with
              | Some l => l
              | None => full (batch_dims lp) (Z.of_nat (ncols lp))
              end) None non_monotone_one_to_one).
Proof.
  unfold __init__.
  rewrite eqb_non_monotone_one_to_many, eqb_non_monotone_many_to_many.
  rewrite String.eqb_refl, andb_false_r. reflexivity.
Qed.

Lemma init_one_to_many_no_lengths (lp : grid_array Q) :
  __init__ lp None None monotone_one_to_many =
  if ncols lp <=? nrows lp then Raise (ValueError useless_distribution_msg)
  else Ok (mk_AlignmentCRF lp (full (batch_dims lp) (Z.of_nat (ncols lp)))
             (Some (mk_GeneralMonotoneAlignmentCRF (Some (lp, lp)) None None None))
             monotone_one_to_many).
Proof.
  unfold __init__. simpl is_none. rewrite String.eqb_refl. reflexivity.
Qed.

(** What a successful construction stores, by alignment type. *)
Lemma init_ok_inv (lp : grid_array Q) (lr lc : option (batch_array Z))
    (ty : string) (crf : AlignmentCRF) :
  __init__ lp lr lc ty = Ok crf ->
  _log_potentials crf = lp
  /\ alignment_type crf = ty
  /\ _lengths crf = match lr with
                    | Some l => l
                    | None => full (batch_dims lp) (Z.of_nat (ncols lp))
                    end
  /\ ((ty = non_monotone_one_to_one /\ _dist crf = None
       /\ lc = None /\ nrows lp = ncols lp)
      \/ (ty <> non_monotone_one_to_one /\ exists d, _dist crf = Some d)).
Proof.
  unfold __init__.
  destruct (is_none lc && is_none lr && (ty =? monotone_one_to_many)%string
            && (ncols lp <=? nrows lp)); [discriminate|].
  destruct (String.eqb_spec ty monotone_one_to_many) as [E1|E1].
  { intros H; injection H as <-. simpl. repeat split; auto.
    right. split; [subst ty; discriminate | eauto]. }
  destruct (String.eqb_spec ty monotone_many_to_many) as [E2|E2].
  { intros H; injection H as <-. simpl. repeat split; auto.
    right. split; [subst ty; discriminate | eauto]. }
  destruct (String.eqb_spec ty non_monotone_one_to_one) as [E3|E3];
    [|discriminate].
  destruct lc as [l|]; simpl; [discriminate|].
  destruct (Nat.eqb_spec (ncols lp) (nrows lp)) as [E4|E4]; simpl;
    [|discriminate].
  intros H; injection H as <-. simpl. repeat split; auto.
Qed.

(** C2, as stated, fails: a monotone one-to-many construction without
    lengths over a 1x2 tensor (rows <= cols) succeeds. *)
Lemma one_to_many_fewer_rows_is_constructed :
  nrows zeros_1x2 <= ncols zeros_1x2
  /\ exists crf, __init__ zeros_1x2 None None monotone_one_to_many = Ok crf.
Proof.
  split; [simpl; lia|].
  rewrite init_one_to_many_no_lengths. simpl. eauto.
Qed.

(** C2, amended: a monotone one-to-many construction without row-lengths
    and column-lengths raises the ValueError of the degenerate shape exactly
    when the tensor has at least as many rows as columns (rows >= cols), and
    it succeeds exactly when rows < cols. *)
Theorem init_one_to_many_degenerate_iff (lp : grid_array Q) :
  (__init__ lp None None monotone_one_to_many
     = Raise (ValueError useless_distribution_msg)
   <-> ncols lp <= nrows lp)
  /\ ((exists crf, __init__ lp None None monotone_one_to_many = Ok crf)
      <-> nrows lp < ncols lp).
Proof.
  rewrite init_one_to_many_no_lengths.
  destruct (Nat.leb_spec (ncols lp) (nrows lp)) as [H|H].
  - split; split; try tauto; try lia.
    intros [crf Hc]. discriminate.
  - split; split; try discriminate; try lia; eauto.
Qed.

Lemma init_one_to_many_degenerate_iff_witness :
  __init__ eye2 None None monotone_one_to_many
    = Raise (ValueError useless_distribution_msg)
  /\ exists crf, __init__ zeros_2x3 None None monotone_one_to_many = Ok crf.
Proof.
  split.
  - apply (proj1 (init_one_to_many_degenerate_iff eye2)). simpl. lia.
  - apply (proj2 (init_one_to_many_degenerate_iff zeros_2x3)). simpl. lia.
Defined.

(** C6: a non-monotone construction raises a ValueError if and only if
    column-lengths are supplied or the matrix is not square; it raises
    nothing else, and on a square matrix with row-lengths only or with no
    lengths it succeeds. *)
Theorem init_non_monotone_fails_iff (lp : grid_array Q)
    (lr lc : option (batch_array Z)) :
  ((exists msg, __init__ lp lr lc non_monotone_one_to_one
                  = Raise (ValueError msg))
   <-> (lc <> None \/ nrows lp <> ncols lp))
  /\ ((exists crf, __init__ lp lr lc non_monotone_one_to_one = Ok crf)
      <-> (lc = None /\ nrows lp = ncols lp))
  /\ (forall e, __init__ lp lr lc non_monotone_one_to_one = Raise e ->
        exists msg, e = ValueError msg).
Proof.
  rewrite init_non_monotone.
  destruct lc as [l|]; simpl.
  - split; [|split].
    + split; [intros _; left; discriminate | intros _; eauto].
    + split; [intros [crf H]; discriminate | intros [H _]; discriminate].
    + intros e H. injection H as <-. eauto.
  - destruct (Nat.eqb_spec (ncols lp) (nrows lp)) as [E|E]; simpl.
    + split; [|split].
      * split; [intros [msg H]; discriminate|].
        intros [H|H]; [congruence | lia].
      * split; [auto | eauto].
      * intros e H. discriminate.
    + split; [|split].
      * split; [intros _; right; lia | intros _; eauto].
      * split; [intros [crf H]; discriminate | intros [_ H]; lia].
      * intros e H. injection H as <-. eauto.
Qed.

Lemma init_non_monotone_fails_iff_witness :
  (exists msg, __init__ zeros_2x3 None None non_monotone_one_to_one
                 = Raise (ValueError msg))
  /\ (exists msg, __init__ eye2 None (Some (full [] 2%Z)) non_monotone_one_to_one
                    = Raise (ValueError msg))
  /\ (exists crf, __init__ eye2 (Some (full [] 1%Z)) None non_monotone_one_to_one
                    = Ok crf).
Proof.
  split; [|split].
  - apply (proj1 (init_non_monotone_fails_iff zeros_2x3 None None)).
    right. simpl. lia.
  - apply (proj1 (init_non_monotone_fails_iff eye2 None (Some (full [] 2%Z)))).
    left. discriminate.
  - apply (proj1 (proj2 (init_non_monotone_fails_iff eye2
                           (Some (full [] 1%Z)) None))).
    split; reflexivity.
Defined.

(** C7: when row-lengths are omitted, whatever the alignment type, the
    stored length vector has the batch shape of the log-potentials and each
    of its entries is the column count (the size of the last axis). *)
Theorem init_default_lengths (lp : grid_array Q) (lc : option (batch_array Z))
    (ty : string) (crf : AlignmentCRF) :
  __init__ lp None lc ty = Ok crf ->
  _lengths crf = full (batch_dims lp) (Z.of_nat (ncols lp))
  /\ bshape (_lengths crf) = batch_shape crf
  /\ forall b, elt (_lengths crf) b = Z.of_nat (ncols lp).
Proof.
  intros H. apply init_ok_inv in H as (Hlp & _ & Hl & _).
  unfold batch_shape. rewrite Hl, Hlp. simpl. auto.
Qed.

Lemma init_default_lengths_witness :
  exists crf,
    __init__ zeros_2x3 None None monotone_many_to_many = Ok crf
    /\ bshape (_lengths crf) = []
    /\ elt (_lengths crf) [] = 3%Z.
Proof.
  eexists. split; [reflexivity|].
  destruct (init_default_lengths zeros_2x3 None monotone_many_to_many _ eq_refl)
    as (_ & Hs & He).
  split; [exact Hs | exact (He [])].
Defined.

(** * The delegate field *)

Lemma after_calls_same {Key kwargs : Type} {engine : MonotoneEngine Key kwargs}
    (solver : list (list weight) -> list nat * list nat)
    (cs : list call) (self : AlignmentCRF) :
  after_calls solver self cs = self.
Proof.
  revert self. induction cs as [|c cs IH]; intros self; simpl; auto.
Qed.

(** C9: on every constructed instance the delegate field is populated if
    and only if the alignment type is not non_monotone_one_to_one, and it is
    null for non_monotone_one_to_one; this holds right after construction
    (no calls) and after any sequence of calls, which leaves the instance
    unchanged. *)
Theorem dist_populated_iff_monotone {Key kwargs : Type}
    {engine : MonotoneEngine Key kwargs}
    (solver : list (list weight) -> list nat * list nat)
    (lp : grid_array Q) (lr lc : option (batch_array Z)) (ty : string)
    (crf : AlignmentCRF) (cs : list call) :
  __init__ lp lr lc ty = Ok crf ->
  after_calls solver crf cs = crf
  /\ (_dist (after_calls solver crf cs) <> None
      <-> alignment_type (after_calls solver crf cs) <> non_monotone_one_to_one)
  /\ (alignment_type (after_calls solver crf cs) = non_monotone_one_to_one
      -> _dist (after_calls solver crf cs) = None).
Proof.
  intros H. rewrite after_calls_same.
  apply init_ok_inv in H as (_ & Hty & _ & [(E & Hd & _)|(E & d & Hd)]).
  - split; [reflexivity|]. rewrite Hd, Hty. split; [|auto].
    split; intros C; congruence.
  - split; [reflexivity|]. rewrite Hd, Hty. split.
    + split; [auto | discriminate].
    + intros C. congruence.
Qed.

Lemma dist_populated_iff_monotone_witness :
  _dist (after_calls (engine := refusing_engine) identity_assignment eye2_crf
           [call_argmax tt; call_entropy tt; call_argmax_and_max tt])
  = None.
Proof.
  refine (proj2 (proj2 (dist_populated_iff_monotone (engine := refusing_engine)
            identity_assignment eye2 None None non_monotone_one_to_one
            eye2_crf _ _)) _); reflexivity.
Defined.

(** * Unsupported operations *)

(** C5: on an instance whose alignment type is non_monotone_one_to_one,
    sample, log_prob, log_partition, marginals, top_k, entropy,
    cross_entropy and kl_divergence each raise a NotImplementedError and
    return nothing, and the message of each names what is unsupported. *)
Theorem non_monotone_unsupported {Key kwargs : Type}
    {engine : MonotoneEngine Key kwargs}
    (self other : AlignmentCRF) (key : Key) (sample_shape : Shape + Z)
    (event : grid_array Q) (k : Z) (kw : kwargs) :
  alignment_type self = non_monotone_one_to_one ->
  (sample self key sample_shape kw = Raise (NotImplementedError sample_msg)
   /\ log_prob self event kw = Raise (NotImplementedError log_prob_msg)
   /\ log_partition self kw = Raise (NotImplementedError log_partition_msg)
   /\ marginals self kw = Raise (NotImplementedError marginals_msg)
   /\ top_k self k kw = Raise (NotImplementedError top_k_msg)
   /\ entropy self kw = Raise (NotImplementedError entropy_msg)
   /\ cross_entropy self other kw = Raise (NotImplementedError cross_entropy_msg)
   /\ kl_divergence self other kw = Raise (NotImplementedError kl_divergence_msg))
  /\ (mentions "sampling" sample_msg
      && mentions "normalized log-probs" log_prob_msg
      && mentions "log-partition" log_partition_msg
      && mentions "marginals" marginals_msg
      && mentions "top-k" top_k_msg
      && mentions "entropy" entropy_msg
      && mentions "cross-entropy" cross_entropy_msg
      && mentions "KL divergence" kl_divergence_msg = true).
Proof.
  intros H.
  unfold sample, log_prob, log_partition, marginals, top_k, entropy,
    cross_entropy, kl_divergence, is_non_monotone.
  rewrite H, String.eqb_refl.
  repeat split.
Qed.

Lemma non_monotone_unsupported_witness :
  entropy (engine := refusing_engine) eye2_crf tt
  = Raise (NotImplementedError entropy_msg).
Proof.
  refine (proj1 (proj2 (proj2 (proj2 (proj2 (proj2 (proj1
    (non_monotone_unsupported (engine := refusing_engine)
       eye2_crf eye2_crf tt (inl []) eye2 1%Z tt _)))))))).
  reflexivity.
Defined.

(** * The backward rule of the non-monotone argmax *)

(** C8: whatever the log-potentials, the lengths and the incoming
    cotangent, the backward rule declared for the non-monotone argmax gives
    a gradient for the log-potentials that has their shape and is zero in
    every cell, and gives no gradient for the lengths. *)
Theorem non_monotone_argmax_gradient_is_zero
    (solver : list (list weight) -> list nat * list nat)
    (log_potentials : grid_array Q) (lenghts : batch_array Z)
    (g : grid_array Q) :
  let backward :=
    snd (_jax_non_monotone_align_callback solver log_potentials lenghts) in
  fst (backward g) = zeros_like log_potentials
  /\ shape (fst (backward g)) = shape log_potentials
  /\ (forall b i j, cell (fst (backward g)) b i j = 0%Q)
  /\ snd (backward g) = None.
Proof.
  simpl. repeat split.
Qed.

(** * argmax_and_max *)

Lemma argmax_and_max_never_returns {Key kwargs : Type}
    {engine : MonotoneEngine Key kwargs}
    (solver : list (list weight) -> list nat * list nat)
    (self : AlignmentCRF) (kw : kwargs) :
  is_ok (argmax_and_max solver self kw) = false.
Proof.
  unfold argmax_and_max. destruct (argmax solver self kw); reflexivity.
Qed.

(** C1 fails on the code: on the non-monotone instance over [[1,0],[0,1]],
    [argmax] returns an array [a] and [unnormalized_log_prob] of [a] returns
    a score [s], yet [argmax_and_max] does not return the pair [(a, s)]: it
    hands the pair [(a, self)] to [unnormalized_log_prob] as the event and
    ends in the TypeError raised there. *)
Theorem argmax_and_max_passes_tuple_event {Key kwargs : Type}
    {engine : MonotoneEngine Key kwargs}
    (solver : list (list weight) -> list nat * list nat) (kw : kwargs) :
  __init__ eye2 None None non_monotone_one_to_one = Ok eye2_crf
  /\ exists a s,
       argmax solver eye2_crf kw = Ok a
       /\ unnormalized_log_prob eye2_crf (VGrid a) kw = Ok s
       /\ unnormalized_log_prob eye2_crf (VTuple [VGrid a; VSelf eye2_crf]) kw
          = Raise (TypeError event_type_msg)
       /\ argmax_and_max solver eye2_crf kw = Raise (TypeError event_type_msg).
Proof.
  split; [reflexivity|].
  do 2 eexists. repeat split.
Qed.

(** * unnormalized_log_prob in the non-monotone regime *)

Lemma Qsum_app (l1 l2 : list Q) :
  (Qsum (l1 ++ l2) == Qsum l1 + Qsum l2)%Q.
Proof.
  induction l1 as [|x l1 IH]; simpl.
  - rewrite Qplus_0_l. reflexivity.
  - rewrite IH. apply Qplus_assoc.
Qed.

Lemma Qsum_list_prod (f : nat * nat -> Q) (l1 l2 : list nat) :
  (Qsum (map f (list_prod l1 l2))
   == Qsum (map (fun i => Qsum (map (fun j => f (i, j)) l2)) l1))%Q.
Proof.
  induction l1 as [|x l1 IH]; simpl.
  - reflexivity.
  - rewrite map_app, Qsum_app, map_map, IH. reflexivity.
Qed.

Lemma einsum_product_sum (event lp : grid_array Q) (b : index) :
  nrows event = nrows lp -> ncols event = ncols lp ->
  (elt (einsum event lp) b == product_sum event lp b)%Q.
Proof.
  intros Hr Hc. unfold einsum, product_sum, cells. simpl.
  rewrite Qsum_list_prod, Hr, Hc. reflexivity.
Qed.

Lemma shape_inj {A B : Type} (x : grid_array A) (y : grid_array B) :
  shape x = shape y ->
  batch_dims x = batch_dims y /\ nrows x = nrows y /\ ncols x = ncols y.
Proof.
  unfold shape. intros H.
  change (batch_dims x ++ [nrows x] ++ [ncols x]
          = batch_dims y ++ [nrows y] ++ [ncols y]) in H.
  rewrite !app_assoc in H.
  apply app_inj_tail_iff in H as [H Hc].
  apply app_inj_tail_iff in H as [Hb Hr].
  auto.
Qed.

(** C4: on a non-monotone instance and an event of the event shape,
    [unnormalized_log_prob] returns, for each batch element, the sum over
    all cells of [event[i,j] * log_potentials[i,j]], where the
    log-potentials are those given to the constructor, whatever lengths were
    given with them. *)
Theorem non_monotone_unnormalized_log_prob {Key kwargs : Type}
    {engine : MonotoneEngine Key kwargs}
    (lp : grid_array Q) (lr lc : option (batch_array Z)) (crf : AlignmentCRF)
    (event : grid_array Q) (kw : kwargs) :
  __init__ lp lr lc non_monotone_one_to_one = Ok crf ->
  shape event = shape lp ->
  exists s,
    unnormalized_log_prob crf (VGrid event) kw = Ok s
    /\ bshape s = batch_shape crf
    /\ forall b, (elt s b == product_sum event lp b)%Q.
Proof.
  intros H Hs. apply init_ok_inv in H as (Hlp & Hty & _).
  apply shape_inj in Hs as (Hb & Hr & Hc).
  unfold unnormalized_log_prob, is_non_monotone.
  rewrite Hty, String.eqb_refl, Hlp.
  eexists. split; [reflexivity|]. split.
  - unfold batch_shape. rewrite Hlp. exact Hb.
  - intros b. apply einsum_product_sum; assumption.
Qed.

(** The example of C4: log-potentials [[1,0],[0,1]] and event
    [[1,0],[0,1]] score 2, also when the declared length is 1 and the
    masked log-potentials would differ. *)
Lemma non_monotone_unnormalized_log_prob_witness :
  exists crf s,
    __init__ eye2 (Some (full [] 1%Z)) None non_monotone_one_to_one = Ok crf
    /\ unnormalized_log_prob (engine := refusing_engine) crf (VGrid eye2) tt
       = Ok s
    /\ (elt s [] == 2)%Q.
Proof.
  eexists.
  destruct (non_monotone_unnormalized_log_prob (engine := refusing_engine)
              eye2 (Some (full [] 1%Z)) None _ eye2 tt eq_refl eq_refl)
    as (s & Hs & _ & Hv).
  exists s. split; [reflexivity|]. split; [exact Hs|].
  rewrite (Hv []). reflexivity.
Defined.

(** * The non-monotone argmax *)

(** ** Slices and masked cells *)

Lemma nth_map_seq {A : Type} (f : nat -> A) (n i : nat) (d : A) :
  i < n -> nth i (map f (seq 0 n)) d = f i.
Proof.
  intros H.
  rewrite (nth_indep _ d (f 0)) by (rewrite length_map, length_seq; exact H).
  rewrite map_nth, seq_nth by exact H. reflexivity.
Qed.

Lemma matrix_at_length {A : Type} (x : grid_array A) (b : index) :
  List.length (matrix_at x b) = nrows x.
Proof. unfold matrix_at. rewrite length_map, length_seq. reflexivity. Qed.

Lemma entry_matrix_at (x : grid_array weight) (b : index) (i j : nat) :
  i < nrows x -> j < ncols x -> entry (matrix_at x b) i j = cell x b i j.
Proof.
  intros Hi Hj. unfold entry, matrix_at.
  rewrite (nth_map_seq _ _ _ _ Hi), (nth_map_seq _ _ _ _ Hj). reflexivity.
Qed.

Lemma masked_shape (lp : grid_array Q) (lens : batch_array Z) :
  batch_dims (masked_log_potentials lp lens) = batch_dims lp
  /\ nrows (masked_log_potentials lp lens) = nrows lp
  /\ ncols (masked_log_potentials lp lens) = ncols lp.
Proof. repeat split. Qed.

(** The three kinds of cells of the masked matrix: the padding diagonal,
    the valid block, and the rest. *)
Lemma masked_cell (lp : grid_array Q) (lens : batch_array Z) (b : index)
    (i j : nat) :
  cell (masked_log_potentials lp lens) b i j =
  if (elt lens b <=? Z.of_nat j)%Z && (i =? j) then PosInf
  else if (Z.of_nat i <? elt lens b)%Z && (Z.of_nat j <? elt lens b)%Z
       then Finite (cell lp b i j)
       else NegInf.
Proof.
  unfold masked_log_potentials, where_, diag_mask, square_mask, length_mask,
    grid_map, broadcast, eye. simpl.
  destruct (elt lens b <=? Z.of_nat j)%Z, (i =? j); reflexivity.
Qed.

Lemma omega_masked_le (lp : grid_array Q) (lens : batch_array Z) (b : index)
    (i j : nat) :
  (omega (cell (masked_log_potentials lp lens) b i j)
   <= row_bound (elt lens b) i)%Z.
Proof.
  rewrite masked_cell. unfold row_bound.
  destruct (Z.leb_spec (elt lens b) (Z.of_nat j)),
           (Nat.eqb_spec i j),
           (Z.ltb_spec (Z.of_nat i) (elt lens b)),
           (Z.ltb_spec (Z.of_nat j) (elt lens b)),
           (Z.leb_spec (elt lens b) (Z.of_nat i)); simpl; lia.
Qed.

Lemma omega_masked_eq (lp : grid_array Q) (lens : batch_array Z) (b : index)
    (i j : nat) :
  omega (cell (masked_log_potentials lp lens) b i j) = row_bound (elt lens b) i ->
  stays_in_block (elt lens b) i j.
Proof.
  rewrite masked_cell. unfold row_bound, stays_in_block.
  destruct (Z.leb_spec (elt lens b) (Z.of_nat j)),
           (Nat.eqb_spec i j),
           (Z.ltb_spec (Z.of_nat i) (elt lens b)),
           (Z.ltb_spec (Z.of_nat j) (elt lens b)),
           (Z.leb_spec (elt lens b) (Z.of_nat i)); simpl; lia.
Qed.

Lemma omega_masked_diag (lp : grid_array Q) (lens : batch_array Z) (b : index)
    (i : nat) :
  omega (cell (masked_log_potentials lp lens) b i i) = row_bound (elt lens b) i.
Proof.
  rewrite masked_cell, Nat.eqb_refl. unfold row_bound.
  destruct (Z.leb_spec (elt lens b) (Z.of_nat i)),
           (Z.ltb_spec (Z.of_nat i) (elt lens b)); simpl; lia.
Qed.

(** ** Sums over assignments *)

Lemma Zsum_le_pointwise {A : Type} (f g : A -> Z) (l : list A) :
  (forall x, In x l -> (f x <= g x)%Z) ->
  (Zsum (map f l) <= Zsum (map g l))%Z.
Proof.
  induction l as [|x l IH]; simpl; intros H; [lia|].
  specialize (H x (or_introl eq_refl)) as Hx.
  assert (Zsum (map f l) <= Zsum (map g l))%Z by (apply IH; auto).
  lia.
Qed.

Lemma Zsum_eq_pointwise {A : Type} (f g : A -> Z) (l : list A) :
  (forall x, In x l -> (f x <= g x)%Z) ->
  (Zsum (map g l) <= Zsum (map f l))%Z ->
  forall x, In x l -> f x = g x.
Proof.
  induction l as [|y l IH]; simpl; intros H Hs x Hx; [contradiction|].
  specialize (H y (or_introl eq_refl)) as Hy.
  assert (Hl : (Zsum (map f l) <= Zsum (map g l))%Z)
    by (apply Zsum_le_pointwise; auto).
  destruct Hx as [<-|Hx]; [lia|].
  apply IH; auto. lia.
Qed.

Lemma Zsum_Permutation (l l' : list Z) :
  Permutation l l' -> Zsum l = Zsum l'.
Proof.
  induction 1; simpl; lia.
Qed.

Lemma map_fst_combine {A B : Type} (l : list A) (l' : list B) :
  List.length l = List.length l' -> map fst (combine l l') = l.
Proof.
  revert l'. induction l as [|x l IH]; intros [|y l'] H; simpl in *;
    try discriminate; auto.
  f_equal. apply IH. lia.
Qed.

Lemma combine_diag {A : Type} (l : list A) :
  combine l l = map (fun x => (x, x)) l.
Proof. induction l as [|x l IH]; simpl; congruence. Qed.

Lemma in_seq_lt (n i : nat) : In i (seq 0 n) -> i < n.
Proof. intros H. apply in_seq in H. lia. Qed.

Lemma Permutation_seq_length (l : list nat) (n : nat) :
  Permutation l (seq 0 n) -> List.length l = n.
Proof.
  intros H. apply Permutation_length in H. rewrite length_seq in H. exact H.
Qed.

(** ** A maximum-weight matching stays in its block *)

Lemma identity_total_omega (lp : grid_array Q) (lens : batch_array Z)
    (b : index) :
  nrows lp = ncols lp ->
  total_omega (matrix_at (masked_log_potentials lp lens) b)
    (seq 0 (ncols lp)) (seq 0 (ncols lp))
  = Zsum (map (row_bound (elt lens b)) (seq 0 (ncols lp))).
Proof.
  intros Hsq. unfold total_omega. rewrite combine_diag, map_map. simpl.
  f_equal. apply map_ext_in. intros i Hi. apply in_seq_lt in Hi.
  rewrite entry_matrix_at by (simpl; lia).
  apply omega_masked_diag.
Qed.

Lemma optimal_matching_stays_in_block (lp : grid_array Q)
    (lens : batch_array Z) (b : index) (rows cols : list nat) :
  nrows lp = ncols lp ->
  maximum_weight_matching (matrix_at (masked_log_potentials lp lens) b)
    (rows, cols) ->
  forall i j, In (i, j) (combine rows cols) ->
    stays_in_block (elt lens b) i j.
Proof.
  intros Hsq (Hr & Hc & Hopt) i j Hin.
  rewrite matrix_at_length in Hr, Hc, Hopt. simpl in Hr, Hc, Hopt.
  rewrite Hsq in Hr, Hc, Hopt.
  set (M := matrix_at (masked_log_potentials lp lens) b) in *.
  set (L := elt lens b).
  pose proof (Permutation_seq_length _ _ Hr) as Lr.
  pose proof (Permutation_seq_length _ _ Hc) as Lc.
  (* every pair of the matching lies in the matrix *)
  assert (Hrange : forall p, In p (combine rows cols) ->
                     fst p < ncols lp /\ snd p < ncols lp).
  { intros [r c] Hp. simpl. split; apply in_seq_lt.
    - apply (Permutation_in _ Hr). eapply in_combine_l; eauto.
    - apply (Permutation_in _ Hc). eapply in_combine_r; eauto. }
  (* cell by cell the matching is bounded by the row bounds *)
  assert (Hle : forall p, In p (combine rows cols) ->
                  (omega (entry M (fst p) (snd p)) <= row_bound L (fst p))%Z).
  { intros p Hp. destruct (Hrange p Hp) as [H1 H2].
    unfold M. rewrite entry_matrix_at by (simpl; lia).
    apply omega_masked_le. }
  (* the identity attains the row bounds, and the matching is no lighter *)
  assert (Hsum : (Zsum (map (fun p => row_bound L (fst p)) (combine rows cols))
                  <= total_omega M rows cols)%Z).
  { assert (E : Zsum (map (fun p => row_bound L (fst p)) (combine rows cols))
                = total_omega M (seq 0 (ncols lp)) (seq 0 (ncols lp))).
    { unfold M. rewrite identity_total_omega by exact Hsq.
      rewrite <- (map_map fst (row_bound L)), map_fst_combine by lia.
      apply Zsum_Permutation, Permutation_map, Hr. }
    rewrite E.
    destruct (Hopt (seq 0 (ncols lp)) (seq 0 (ncols lp))
                (Permutation_refl _) (Permutation_refl _)) as [H|[H _]];
      simpl in H; lia. }
  pose proof (Zsum_eq_pointwise _ _ _ Hle Hsum (i, j) Hin) as Heq.
  simpl in Heq. destruct (Hrange (i, j) Hin) as [H1 H2]. simpl in H1, H2.
  unfold M in Heq. rewrite entry_matrix_at in Heq by (simpl; lia).
  apply omega_masked_eq in Heq. exact Heq.
Qed.

(** ** Counting the pairs of an assignment *)

Lemma one_hot_count (n : nat) (rows cols : list nat) (a c : nat) :
  a < n -> c < n ->
  count_true (map (fun p => nth a (fst p) false && nth c (snd p) false)
                  (combine (one_hot n rows) (one_hot n cols)))
  = count_pair a c (combine rows cols).
Proof.
  intros Ha Hc. unfold count_pair, one_hot.
  revert cols. induction rows as [|r rows IH]; intros [|c0 cols]; simpl; auto.
  rewrite (nth_map_seq _ _ _ _ Ha), (nth_map_seq _ _ _ _ Hc).
  unfold count_true in *. simpl.
  destruct ((a =? r) && (c =? c0)); simpl; rewrite IH; reflexivity.
Qed.

Lemma count_pair_pos_in (a c : nat) (l : list (nat * nat)) :
  count_pair a c l <> 0 -> In (a, c) l.
Proof.
  unfold count_pair, count_true.
  induction l as [|[r c0] l IH]; simpl; [congruence|].
  destruct (Nat.eqb_spec a r), (Nat.eqb_spec c c0); simpl; subst; auto.
Qed.

Lemma count_pair_in (a c : nat) (rows cols : list nat) :
  NoDup rows -> In (a, c) (combine rows cols) ->
  count_pair a c (combine rows cols) = 1.
Proof.
  revert cols. induction rows as [|r rows IH]; intros [|c0 cols] Hnd Hin;
    simpl in *; try contradiction.
  apply NoDup_cons_iff in Hnd as [Hr Hnd].
  destruct Hin as [E|Hin].
  - injection E as -> ->. unfold count_pair, count_true. simpl.
    rewrite !Nat.eqb_refl. simpl. f_equal.
    destruct (Nat.eq_dec (count_pair a c (combine rows cols)) 0) as [Z|NZ];
      [exact Z|].
    exfalso. apply Hr. apply count_pair_pos_in in NZ.
    eapply in_combine_l; eauto.
  - assert (a <> r).
    { intros ->. apply Hr. eapply in_combine_l; eauto. }
    unfold count_pair, count_true. simpl.
    destruct (Nat.eqb_spec a r); [contradiction|]. simpl.
    apply IH; assumption.
Qed.

Lemma count_pair_0_or_1 (a c : nat) (rows cols : list nat) :
  NoDup rows ->
  count_pair a c (combine rows cols) = 0 \/ count_pair a c (combine rows cols) = 1.
Proof.
  intros Hnd.
  destruct (Nat.eq_dec (count_pair a c (combine rows cols)) 0) as [Z|NZ];
    [left; exact Z | right].
  apply count_pair_in; [exact Hnd | apply count_pair_pos_in; exact NZ].
Qed.

Lemma combine_functional (rows cols : list nat) (i j j' : nat) :
  NoDup rows -> In (i, j) (combine rows cols) -> In (i, j') (combine rows cols) ->
  j = j'.
Proof.
  revert cols. induction rows as [|r rows IH]; intros [|c0 cols] Hnd H1 H2;
    simpl in *; try contradiction.
  apply NoDup_cons_iff in Hnd as [Hr Hnd].
  destruct H1 as [E1|H1], H2 as [E2|H2].
  - congruence.
  - injection E1 as -> ->. exfalso. apply Hr. eapply in_combine_l; eauto.
  - injection E2 as -> ->. exfalso. apply Hr. eapply in_combine_l; eauto.
  - eapply IH; eauto.
Qed.

Lemma combine_injective (rows cols : list nat) (i i' j : nat) :
  NoDup cols -> In (i, j) (combine rows cols) -> In (i', j) (combine rows cols) ->
  i = i'.
Proof.
  revert cols. induction rows as [|r rows IH]; intros [|c0 cols] Hnd H1 H2;
    simpl in *; try contradiction.
  apply NoDup_cons_iff in Hnd as [Hc Hnd].
  destruct H1 as [E1|H1], H2 as [E2|H2].
  - congruence.
  - injection E1 as -> ->. exfalso. apply Hc. eapply in_combine_r; eauto.
  - injection E2 as -> ->. exfalso. apply Hc. eapply in_combine_r; eauto.
  - eapply IH; eauto.
Qed.

Lemma combine_total_l (rows cols : list nat) (i : nat) :
  List.length rows = List.length cols -> In i rows ->
  exists j, In (i, j) (combine rows cols).
Proof.
  revert cols. induction rows as [|r rows IH]; intros [|c0 cols] Hl Hin;
    simpl in *; try contradiction; try discriminate.
  destruct Hin as [->|Hin]; [eauto|].
  destruct (IH cols) as [j Hj]; [lia | exact Hin | eauto].
Qed.

Lemma combine_total_r (rows cols : list nat) (j : nat) :
  List.length rows = List.length cols -> In j cols ->
  exists i, In (i, j) (combine rows cols).
Proof.
  revert cols. induction rows as [|r rows IH]; intros [|c0 cols] Hl Hin;
    simpl in *; try contradiction; try discriminate.
  destruct Hin as [->|Hin]; [eauto|].
  destruct (IH cols) as [i Hi]; [lia | exact Hin | eauto].
Qed.

(** ** The alignment matrix *)

Lemma callback_cell (solver : list (list weight) -> list nat * list nat)
    (lp : grid_array Q) (lens : batch_array Z) (b : index) (i j : nat) :
  i < ncols lp -> j < ncols lp ->
  cell (fst (_jax_non_monotone_align_callback solver lp lens)) b i j
  = (Q_of_nat (count_pair i j
                 (combine
                    (fst (solver (matrix_at (masked_log_potentials lp lens) b)))
                    (snd (solver (matrix_at (masked_log_potentials lp lens) b)))))
     * Q_of_bool (valid_cell (elt lens b) i j))%Q.
Proof.
  intros Hi Hj. unfold _jax_non_monotone_align_callback. simpl.
  destruct (solver (matrix_at (masked_log_potentials lp lens) b))
    as [rows cols]. simpl.
  rewrite one_hot_count by assumption. reflexivity.
Qed.

Lemma callback_cell_masked (solver : list (list weight) -> list nat * list nat)
    (lp : grid_array Q) (lens : batch_array Z) (b : index) (i j : nat) :
  valid_cell (elt lens b) i j = false ->
  (cell (fst (_jax_non_monotone_align_callback solver lp lens)) b i j == 0)%Q.
Proof.
  intros H. unfold _jax_non_monotone_align_callback. simpl.
  unfold valid_cell in H. rewrite H. apply Qmult_0_r.
Qed.


Lemma callback_restricted_permutation_matrix
    (solver : list (list weight) -> list nat * list nat)
    (lp : grid_array Q) (lens : batch_array Z) (b : index) :
  nrows lp = ncols lp ->
  maximum_weight_matching (matrix_at (masked_log_potentials lp lens) b)
    (solver (matrix_at (masked_log_potentials lp lens) b)) ->
  restricted_permutation_matrix
    (fst (_jax_non_monotone_align_callback solver lp lens)) b
    (ncols lp) (elt lens b).
Proof.
  intros Hsq Hmax.
  pose proof (callback_cell solver lp lens b) as Hcell.
  pose proof (callback_cell_masked solver lp lens b) as Hmasked.
  remember (fst (_jax_non_monotone_align_callback solver lp lens)) as out
    eqn:Eout.
  clear Eout.
  destruct (solver (matrix_at (masked_log_potentials lp lens) b))
    as [rows cols] eqn:Esol.
  simpl fst in Hcell. simpl snd in Hcell.
  pose proof (optimal_matching_stays_in_block _ _ _ _ _ Hsq Hmax) as Hblock.
  destruct Hmax as (Hr & Hc & _). simpl in Hr, Hc.
  rewrite matrix_at_length in Hr, Hc. simpl in Hr, Hc. rewrite Hsq in Hr, Hc.
  set (L := elt lens b) in *.
  pose proof (Permutation_seq_length _ _ Hr) as Lr.
  pose proof (Permutation_seq_length _ _ Hc) as Lc.
  assert (NDr : NoDup rows)
    by (apply (Permutation_NoDup (Permutation_sym Hr)), seq_NoDup).
  assert (NDc : NoDup cols)
    by (apply (Permutation_NoDup (Permutation_sym Hc)), seq_NoDup).
  assert (Hin_r : forall i j, In (i, j) (combine rows cols) -> i < ncols lp).
  { intros i j H. apply in_seq_lt, (Permutation_in _ Hr).
    eapply in_combine_l; eauto. }
  assert (Hin_c : forall i j, In (i, j) (combine rows cols) -> j < ncols lp).
  { intros i j H. apply in_seq_lt, (Permutation_in _ Hc).
    eapply in_combine_r; eauto. }
  (* an entry equal to 1 is a pair of the matching *)
  assert (Hone : forall i j, i < ncols lp -> j < ncols lp ->
            (cell out b i j == 1)%Q -> In (i, j) (combine rows cols)).
  { intros i j Hi Hj H1. rewrite Hcell in H1 by assumption.
    apply count_pair_pos_in. intros Z. rewrite Z in H1.
    destruct (valid_cell L i j); discriminate H1. }
  (* a pair of the matching between valid positions is an entry 1 *)
  assert (Hpair : forall i j, In (i, j) (combine rows cols) ->
            (Z.of_nat i < L)%Z -> (Z.of_nat j < L)%Z ->
            (cell out b i j == 1)%Q).
  { intros i j Hin Hi Hj.
    rewrite Hcell by eauto.
    rewrite (count_pair_in _ _ _ _ NDr Hin). unfold valid_cell.
    destruct (Z.ltb_spec (Z.of_nat i) L); [|lia].
    destruct (Z.ltb_spec (Z.of_nat j) L); [|lia]. reflexivity. }
  split; [|split; [|split]].
  - intros i Hi HiL.
    destruct (combine_total_l rows cols i) as [j Hj]; [lia | |].
    { apply (Permutation_in _ (Permutation_sym Hr)), in_seq. lia. }
    destruct (Hblock i j Hj) as [_ Hv]. specialize (Hv HiL).
    exists j. split; [eauto|]. split; [exact Hv|]. split; [auto|].
    intros j' Hj' H1. apply (combine_functional rows cols i); auto.
  - intros j Hj HjL.
    destruct (combine_total_r rows cols j) as [i Hi]; [lia | |].
    { apply (Permutation_in _ (Permutation_sym Hc)), in_seq. lia. }
    destruct (Hblock i j Hi) as [Hpad _].
    assert (HiL : (Z.of_nat i < L)%Z).
    { destruct (Z.lt_ge_cases (Z.of_nat i) L) as [H|H]; [exact H|].
      specialize (Hpad H). subst j. lia. }
    exists i. split; [eauto|]. split; [exact HiL|]. split; [auto|].
    intros i' Hi' H1. apply (combine_injective rows cols i' i j); auto.
  - intros i j Hi Hj Hout.
    apply Hmasked. unfold valid_cell.
    destruct (Z.ltb_spec (Z.of_nat i) L), (Z.ltb_spec (Z.of_nat j) L);
      simpl; auto; lia.
  - intros i j Hi Hj. rewrite Hcell by assumption.
    destruct (count_pair_0_or_1 i j rows cols NDr) as [-> | ->];
      destruct (valid_cell L i j);
      first [left; reflexivity | right; reflexivity].
Qed.

Lemma argmax_non_monotone {Key kwargs : Type}
    {engine : MonotoneEngine Key kwargs}
    (solver : list (list weight) -> list nat * list nat)
    (self : AlignmentCRF) (kw : kwargs) :
  alignment_type self = non_monotone_one_to_one ->
  argmax solver self kw
  = Ok (fst (_jax_non_monotone_align_callback solver
               (_log_potentials self) (_lengths self))).
Proof.
  intros H. unfold argmax, is_non_monotone. rewrite H, String.eqb_refl.
  reflexivity.
Qed.

(** C3: on a non-monotone instance, at a batch element of declared length
    [L] on which the solver returns a maximum-weight matching of the masked
    matrix, [argmax] returns a permutation matrix restricted to [L]: every
    row [i < L] has exactly one entry 1 and it lies at a column [j < L],
    every column [j < L] has exactly one entry 1 and it lies at a row
    [i < L], every entry with [i >= L] or [j >= L] is 0, and every entry is
    0 or 1. *)
Theorem non_monotone_argmax_is_restricted_permutation {Key kwargs : Type}
    {engine : MonotoneEngine Key kwargs}
    (solver : list (list weight) -> list nat * list nat)
    (lp : grid_array Q) (lr lc : option (batch_array Z)) (crf : AlignmentCRF)
    (kw : kwargs) (b : index) :
  __init__ lp lr lc non_monotone_one_to_one = Ok crf ->
  maximum_weight_matching
    (matrix_at (masked_log_potentials (_log_potentials crf) (_lengths crf)) b)
    (solver
       (matrix_at (masked_log_potentials (_log_potentials crf) (_lengths crf)) b)) ->
  exists out,
    argmax solver crf kw = Ok out
    /\ shape out = shape lp
    /\ restricted_permutation_matrix out b (ncols lp) (elt (_lengths crf) b).
Proof.
  intros H Hmax.
  apply init_ok_inv in H as (Hlp & Hty & _ & [(_ & _ & _ & Hsq)|(C & _)]);
    [|contradiction].
  rewrite (argmax_non_monotone solver crf kw Hty).
  eexists. split; [reflexivity|]. rewrite Hlp in *. split; [reflexivity|].
  apply callback_restricted_permutation_matrix; assumption.
Qed.

Lemma two_element_permutations (l : list nat) :
  Permutation l [0; 1] -> l = [0; 1] \/ l = [1; 0].
Proof.
  intros H. apply Permutation_sym, Permutation_length_2_inv in H. exact H.
Qed.

(** On [[1,0],[0,1]] with declared length 1 the identity assignment is a
    maximum-weight matching of the masked matrix, and the argmax keeps the
    single valid cell. *)
Lemma non_monotone_argmax_is_restricted_permutation_witness :
  exists crf out,
    __init__ eye2 (Some (full [] 1%Z)) None non_monotone_one_to_one = Ok crf
    /\ argmax (engine := refusing_engine) identity_assignment crf tt = Ok out
    /\ restricted_permutation_matrix out [] 2 1%Z.
Proof.
  eexists.
  destruct (non_monotone_argmax_is_restricted_permutation
              (engine := refusing_engine) identity_assignment
              eye2 (Some (full [] 1%Z)) None _ tt [] eq_refl)
    as (out & Hout & _ & Hperm).
  - split; [apply Permutation_refl|]. split; [apply Permutation_refl|].
    intros rows' cols' Hr Hc.
    apply two_element_permutations in Hr, Hc.
    destruct Hr as [-> | ->], Hc as [-> | ->];
      first [ left; reflexivity
            | right; split; [reflexivity | vm_compute; discriminate] ].
  - exists out. split; [reflexivity|]. split; [exact Hout | exact Hperm].
Defined.

(** C10: at a batch element of declared length 0 the non-monotone [argmax]
    returns (it does not raise) and its matrix is zero in every cell; and a
    maximum-weight matching of the masked matrix, whose whole diagonal is
    padding, matches every position to itself. *)
Theorem non_monotone_argmax_length_zero {Key kwargs : Type}
    {engine : MonotoneEngine Key kwargs}
    (solver : list (list weight) -> list nat * list nat)
    (lp : grid_array Q) (lr lc : option (batch_array Z)) (crf : AlignmentCRF)
    (kw : kwargs) (b : index) :
  __init__ lp lr lc non_monotone_one_to_one = Ok crf ->
  elt (_lengths crf) b = 0%Z ->
  exists out,
    argmax solver crf kw = Ok out
    /\ (forall i j, (cell out b i j == 0)%Q)
    /\ (maximum_weight_matching
          (matrix_at (masked_log_potentials (_log_potentials crf) (_lengths crf)) b)
          (solver
             (matrix_at (masked_log_potentials (_log_potentials crf)
                           (_lengths crf)) b)) ->
        forall i j,
          In (i, j)
             (combine
                (fst (solver (matrix_at (masked_log_potentials
                                           (_log_potentials crf) (_lengths crf)) b)))
                (snd (solver (matrix_at (masked_log_potentials
                                           (_log_potentials crf) (_lengths crf)) b)))) ->
          j = i).
Proof.
  intros H HL.
  apply init_ok_inv in H as (Hlp & Hty & _ & [(_ & _ & _ & Hsq)|(C & _)]);
    [|contradiction].
  rewrite (argmax_non_monotone solver crf kw Hty).
  eexists. split; [reflexivity|]. split.
  - intros i j. apply callback_cell_masked. unfold valid_cell. rewrite HL.
    destruct (Z.ltb_spec (Z.of_nat i) 0); [lia | reflexivity].
  - intros Hmax i j Hin.
    rewrite <- Hlp in Hsq.
    destruct (solver _) as [rows cols]. simpl in Hin.
    destruct (optimal_matching_stays_in_block _ _ _ _ _ Hsq Hmax i j Hin)
      as [Hpad _].
    apply Hpad. rewrite HL. lia.
Qed.

Lemma non_monotone_argmax_length_zero_witness :
  exists crf out,
    __init__ eye2 (Some (full [] 0%Z)) None non_monotone_one_to_one = Ok crf
    /\ argmax (engine := refusing_engine) identity_assignment crf tt = Ok out
    /\ (cell out [] 0 0 == 0)%Q /\ (cell out [] 1 1 == 0)%Q.
Proof.
  eexists.
  destruct (non_monotone_argmax_length_zero
              (engine := refusing_engine) identity_assignment
              eye2 (Some (full [] 0%Z)) None _ tt [] eq_refl eq_refl)
    as (out & Hout & Hzero & _).
  exists out. split; [reflexivity|]. split; [exact Hout|].
  split; apply Hzero.
Defined.

(** * Further properties of the construction *)

Lemma init_monotone_inv (lp : grid_array Q) (lr lc : option (batch_array Z))
    (ty : string) (crf : AlignmentCRF) :
  __init__ lp lr lc ty = Ok crf ->
  ty <> non_monotone_one_to_one ->
  _dist crf = Some (monotone_delegate lp lr lc ty)
  /\ alignment_type crf = ty.
Proof.
  unfold __init__, monotone_delegate.
  destruct (is_none lc && is_none lr && (ty =? monotone_one_to_many)%string
            && (ncols lp <=? nrows lp)); [discriminate|].
  destruct (String.eqb_spec ty monotone_one_to_many) as [E1|E1].
  { intros H _. injection H as <-. split; reflexivity. }
  destruct (String.eqb_spec ty monotone_many_to_many) as [E2|E2].
  { intros H _. injection H as <-. split; reflexivity. }
  destruct (String.eqb_spec ty non_monotone_one_to_one) as [E3|E3];
    [intros _ C; contradiction | discriminate].
Qed.

Lemma is_non_monotone_false (self : AlignmentCRF) :
  alignment_type self <> non_monotone_one_to_one ->
  is_non_monotone self = false.
Proof.
  intros H. unfold is_non_monotone.
  destruct (String.eqb_spec (alignment_type self) non_monotone_one_to_one);
    [contradiction | reflexivity].
Qed.

(** A construction succeeds exactly in three cases: many-to-many, always;
    one-to-many, unless both lengths are omitted and there are at least as
    many rows as columns (so that supplying either length skips the shape
    check); non-monotone, when no column-lengths are given and the matrix is
    square. *)
Theorem init_succeeds_iff (lp : grid_array Q) (lr lc : option (batch_array Z))
    (ty : string) :
  (exists crf, __init__ lp lr lc ty = Ok crf)
  <-> (ty = monotone_many_to_many
       \/ (ty = monotone_one_to_many
           /\ (lr <> None \/ lc <> None \/ nrows lp < ncols lp))
       \/ (ty = non_monotone_one_to_one /\ lc = None /\ nrows lp = ncols lp)).
Proof.
  unfold __init__.
  destruct (String.eqb_spec ty monotone_one_to_many) as [E1|E1].
  { subst ty. rewrite andb_true_r.
    destruct lc as [c|], lr as [r|]; simpl;
      try (split; [intros _; right; left; split; [reflexivity|];
                   first [left; discriminate | right; left; discriminate]
                  | intros _; eauto]).
    destruct (Nat.leb_spec (ncols lp) (nrows lp)) as [H|H].
    - split; [intros [crf C]; discriminate|].
      intros [C|[(_ & [C|[C|C]])|(C & _)]];
        try discriminate; try congruence; lia.
    - split; [|intros _; eauto].
      intros _. right. left. split; [reflexivity|]. right. right. exact H. }
  rewrite !andb_false_r. simpl.
  destruct (String.eqb_spec ty monotone_many_to_many) as [E2|E2].
  { split; [intros _; left; exact E2 | intros _; eauto]. }
  destruct (String.eqb_spec ty non_monotone_one_to_one) as [E3|E3].
  - destruct lc as [c|]; simpl.
    + split; [intros [crf C]; discriminate|].
      intros [C|[(C & _)|(_ & C & _)]]; congruence.
    + destruct (Nat.eqb_spec (ncols lp) (nrows lp)) as [H|H]; simpl.
      * split; [|intros _; eauto]. intros _. right. right. auto.
      * split; [intros [crf C]; discriminate|].
        intros [C|[(C & _)|(_ & _ & C)]]; first [congruence | lia].
  - split; [intros [crf C]; discriminate|].
    intros [C|[(C & _)|(C & _)]]; congruence.
Qed.

(** * Forwarding to the delegate *)

(** On an instance constructed with a monotone alignment type the delegate
    is the one built from the constructor's own arguments, and every
    operation is the delegate's operation on it: no call ends in the
    facade's own errors. *)
Theorem monotone_operations_forward {Key kwargs : Type}
    {engine : MonotoneEngine Key kwargs}
    (solver : list (list weight) -> list nat * list nat)
    (lp : grid_array Q) (lr lc : option (batch_array Z)) (ty : string)
    (crf other : AlignmentCRF) (key : Key) (sample_shape : Shape + Z)
    (scores : batch_array Q) (event : grid_array Q) (k : Z) (kw : kwargs) :
  __init__ lp lr lc ty = Ok crf ->
  ty <> non_monotone_one_to_one ->
  let d := monotone_delegate lp lr lc ty in
  sample crf key sample_shape kw = dist_sample d key sample_shape kw
  /\ normalize_log_probs crf scores = dist_normalize_log_probs d scores
  /\ log_prob crf event kw = dist_log_prob d event kw
  /\ unnormalized_log_prob crf (VGrid event) kw
     = dist_unnormalized_log_prob d event kw
  /\ log_partition crf kw = dist_log_partition d kw
  /\ marginals_for_template_variables crf kw
     = dist_marginals_for_template_variables d kw
  /\ marginals crf kw = dist_marginals d kw
  /\ argmax solver crf kw = dist_argmax d kw
  /\ top_k crf k kw = dist_top_k d k kw
  /\ entropy crf kw = dist_entropy d kw
  /\ cross_entropy crf other kw = dist_cross_entropy d (_dist other) kw
  /\ kl_divergence crf other kw = dist_kl_divergence d (_dist other) kw.
Proof.
  intros H Hty d.
  destruct (init_monotone_inv _ _ _ _ _ H Hty) as [Hd Ht].
  assert (Hn : is_non_monotone crf = false)
    by (apply is_non_monotone_false; congruence).
  unfold sample, normalize_log_probs, log_prob, unnormalized_log_prob,
    log_partition, marginals_for_template_variables, marginals, argmax,
    top_k, entropy, cross_entropy, kl_divergence, with_dist.
  rewrite Hn, Hd. repeat split.
Qed.

Lemma monotone_operations_forward_witness :
  entropy (engine := refusing_engine)
    (mk_AlignmentCRF zeros_2x3 (full [] 3%Z)
       (Some (monotone_delegate zeros_2x3 None None monotone_many_to_many))
       monotone_many_to_many) tt
  = dist_entropy (MonotoneEngine := refusing_engine)
      (monotone_delegate zeros_2x3 None None monotone_many_to_many) tt.
Proof.
  refine (proj1 (proj2 (proj2 (proj2 (proj2 (proj2 (proj2 (proj2 (proj2
    (proj2 (monotone_operations_forward (engine := refusing_engine)
       identity_assignment zeros_2x3 None None monotone_many_to_many
       _ eye2_crf tt (inl []) (full [] 0%Q) zeros_2x3 1%Z tt _ _)))))))))));
    [reflexivity | discriminate].
Defined.

(** The divergences of a monotone instance against a non-monotone one are
    not refused by the facade: the delegate is called with [None] in the
    place of the other delegate. *)
Theorem divergence_against_non_monotone {Key kwargs : Type}
    {engine : MonotoneEngine Key kwargs}
    (lp lp' : grid_array Q) (lr lc lr' lc' : option (batch_array Z))
    (ty : string) (crf other : AlignmentCRF) (kw : kwargs) :
  __init__ lp lr lc ty = Ok crf ->
  ty <> non_monotone_one_to_one ->
  __init__ lp' lr' lc' non_monotone_one_to_one = Ok other ->
  cross_entropy crf other kw
  = dist_cross_entropy (monotone_delegate lp lr lc ty) None kw
  /\ kl_divergence crf other kw
     = dist_kl_divergence (monotone_delegate lp lr lc ty) None kw.
Proof.
  intros H Hty H'.
  destruct (init_monotone_inv _ _ _ _ _ H Hty) as [Hd Ht].
  apply init_ok_inv in H' as (_ & _ & _ & [(_ & Hnone & _)|(C & _)]);
    [|contradiction].
  assert (Hn : is_non_monotone crf = false)
    by (apply is_non_monotone_false; congruence).
  unfold cross_entropy, kl_divergence, with_dist.
  rewrite Hn, Hd, Hnone. split; reflexivity.
Qed.

Lemma divergence_against_non_monotone_witness :
  exists crf,
    __init__ zeros_2x3 None None monotone_many_to_many = Ok crf
    /\ cross_entropy (engine := refusing_engine) crf eye2_crf tt
       = Raise (NotImplementedError "cross_entropy").
Proof.
  eexists. split; [reflexivity|].
  refine (proj1 (divergence_against_non_monotone (engine := refusing_engine)
            zeros_2x3 eye2 None None None None monotone_many_to_many
            _ eye2_crf tt _ _ _)); [reflexivity | discriminate | reflexivity].
Defined.



(** * Further properties of the non-monotone argmax *)

(** When the row indices returned by the solver are pairwise distinct,
    [_numpy_non_monotone_align] yields the indicator of the assignment:
    entry [(a, c)] is 1 if the solver paired row [a] with column [c] and 0
    otherwise. *)
Theorem alignment_is_indicator_of_assignment
    (solver : list (list weight) -> list nat * list nat)
    (log_potentials : grid_array weight) (b : index) (a c : nat) :
  a < ncols log_potentials -> c < ncols log_potentials ->
  NoDup (fst (solver (matrix_at log_potentials b))) ->
  (In (a, c) (combine (fst (solver (matrix_at log_potentials b)))
                      (snd (solver (matrix_at log_potentials b)))) ->
   cell (_numpy_non_monotone_align solver log_potentials) b a c = 1%Q)
  /\ (~ In (a, c) (combine (fst (solver (matrix_at log_potentials b)))
                           (snd (solver (matrix_at log_potentials b)))) ->
      cell (_numpy_non_monotone_align solver log_potentials) b a c = 0%Q).
Proof.
  intros Ha Hc Hnd. unfold _numpy_non_monotone_align. simpl.
  destruct (solver (matrix_at log_potentials b)) as [rows cols].
  simpl in *. rewrite one_hot_count by assumption. split.
  - intros Hin. rewrite (count_pair_in _ _ _ _ Hnd Hin). reflexivity.
  - intros Hnin.
    destruct (Nat.eq_dec (count_pair a c (combine rows cols)) 0) as [Z|NZ].
    + rewrite Z. reflexivity.
    + exfalso. apply Hnin, count_pair_pos_in, NZ.
Qed.

Lemma alignment_is_indicator_of_assignment_witness :
  cell (_numpy_non_monotone_align identity_assignment (grid_map Finite eye2))
       [] 1 1 = 1%Q.
Proof.
  refine (proj1 (alignment_is_indicator_of_assignment identity_assignment
                   (grid_map Finite eye2) [] 1 1 _ _ _) _).
  - simpl. lia.
  - simpl. lia.
  - simpl. repeat constructor; simpl; intuition discriminate.
  - simpl. auto.
Defined.

(** Whatever the solver returns, the non-monotone [argmax] never aligns a
    padding position: every entry whose row or column is at or beyond the
    declared length is 0 (so a length of zero or less gives the zero
    matrix). *)
Theorem argmax_never_aligns_padding {Key kwargs : Type}
    {engine : MonotoneEngine Key kwargs}
    (solver : list (list weight) -> list nat * list nat)
    (self : AlignmentCRF) (kw : kwargs) (b : index) (i j : nat) :
  alignment_type self = non_monotone_one_to_one ->
  (elt (_lengths self) b <= Z.of_nat i \/ elt (_lengths self) b <= Z.of_nat j)%Z ->
  exists out, argmax solver self kw = Ok out /\ (cell out b i j == 0)%Q.
Proof.
  intros Hty Hpad. rewrite (argmax_non_monotone solver self kw Hty).
  eexists. split; [reflexivity|].
  apply callback_cell_masked. unfold valid_cell.
  destruct (Z.ltb_spec (Z.of_nat i) (elt (_lengths self) b)),
           (Z.ltb_spec (Z.of_nat j) (elt (_lengths self) b));
    simpl; auto; lia.
Qed.

Lemma argmax_never_aligns_padding_witness :
  exists out,
    argmax (engine := refusing_engine) identity_assignment
      (mk_AlignmentCRF eye2 (full [] 1%Z) None non_monotone_one_to_one) tt
    = Ok out
    /\ (cell out [] 1 1 == 0)%Q.
Proof.
  refine (argmax_never_aligns_padding (engine := refusing_engine)
            identity_assignment
            (mk_AlignmentCRF eye2 (full [] 1%Z) None non_monotone_one_to_one)
            tt [] 1 1 _ _); [reflexivity | left; simpl; lia].
Defined.

Lemma matrix_at_ext {A : Type} (x y : grid_array A) (b : index) :
  nrows x = nrows y -> ncols x = ncols y ->
  (forall i j, i < nrows x -> j < ncols x -> cell x b i j = cell y b i j) ->
  matrix_at x b = matrix_at y b.
Proof.
  intros Hr Hc H. unfold matrix_at. rewrite <- Hr, <- Hc.
  apply map_ext_in. intros i Hi. apply in_seq_lt in Hi.
  apply map_ext_in. intros j Hj. apply in_seq_lt in Hj.
  apply H; assumption.
Qed.

(** When row-lengths are omitted in a non-monotone construction, the
    default lengths (the column count) mask nothing: the matrix handed to
    the solver at every batch element is the log-potentials themselves. *)
Theorem default_lengths_mask_nothing (lp : grid_array Q)
    (lc : option (batch_array Z)) (crf : AlignmentCRF) (b : index) :
  __init__ lp None lc non_monotone_one_to_one = Ok crf ->
  matrix_at (masked_log_potentials (_log_potentials crf) (_lengths crf)) b
  = matrix_at (grid_map Finite lp) b.
Proof.
  intros H.
  apply init_ok_inv in H as (Hlp & _ & Hl & [(_ & _ & _ & Hsq)|(C & _)]);
    [|contradiction].
  rewrite Hlp, Hl. apply matrix_at_ext; try reflexivity.
  intros i j Hi Hj. simpl in Hi, Hj.
  rewrite masked_cell. simpl.
  destruct (Z.leb_spec (Z.of_nat (ncols lp)) (Z.of_nat j)); [lia|].
  destruct (Z.ltb_spec (Z.of_nat i) (Z.of_nat (ncols lp))); [|lia].
  destruct (Z.ltb_spec (Z.of_nat j) (Z.of_nat (ncols lp))); [|lia].
  reflexivity.
Qed.

Lemma default_lengths_mask_nothing_witness :
  matrix_at (masked_log_potentials (_log_potentials eye2_crf)
               (_lengths eye2_crf)) []
  = [[Finite 1%Q; Finite 0%Q]; [Finite 0%Q; Finite 1%Q]].
Proof.
  exact (default_lengths_mask_nothing eye2 None eye2_crf [] eq_refl).
Defined.

(** Declared lengths act only through their value clamped to [0 .. n]: on
    square log-potentials, two length arrays whose clamped values agree at a
    batch element give the solver the same matrix and give the same
    alignment there (a negative length acts as 0, one beyond [n] as [n]). *)
Theorem lengths_act_clamped
    (solver : list (list weight) -> list nat * list nat)
    (lp : grid_array Q) (lens lens' : batch_array Z) (b : index) :
  nrows lp = ncols lp ->
  clamp (elt lens b) (ncols lp) = clamp (elt lens' b) (ncols lp) ->
  matrix_at (masked_log_potentials lp lens) b
  = matrix_at (masked_log_potentials lp lens') b
  /\ forall i j, i < ncols lp -> j < ncols lp ->
       cell (fst (_jax_non_monotone_align_callback solver lp lens)) b i j
       = cell (fst (_jax_non_monotone_align_callback solver lp lens')) b i j.
Proof.
  intros Hsq Hcl. unfold clamp in Hcl.
  assert (Hlt : forall k, k < ncols lp ->
            (Z.of_nat k <? elt lens b)%Z = (Z.of_nat k <? elt lens' b)%Z).
  { intros k Hk.
    destruct (Z.ltb_spec (Z.of_nat k) (elt lens b)),
             (Z.ltb_spec (Z.of_nat k) (elt lens' b)); auto; lia. }
  assert (Hle : forall k, k < ncols lp ->
            (elt lens b <=? Z.of_nat k)%Z = (elt lens' b <=? Z.of_nat k)%Z).
  { intros k Hk.
    destruct (Z.leb_spec (elt lens b) (Z.of_nat k)),
             (Z.leb_spec (elt lens' b) (Z.of_nat k)); auto; lia. }
  assert (HM : matrix_at (masked_log_potentials lp lens) b
               = matrix_at (masked_log_potentials lp lens') b).
  { apply matrix_at_ext; try reflexivity.
    intros i j Hi Hj. simpl in Hi, Hj.
    rewrite !masked_cell, (Hle j), (Hlt i), (Hlt j) by lia. reflexivity. }
  split; [exact HM|].
  intros i j Hi Hj. rewrite !callback_cell by assumption.
  rewrite HM. unfold valid_cell. rewrite (Hlt i), (Hlt j) by assumption.
  reflexivity.
Qed.

Lemma lengths_act_clamped_witness :
  cell (fst (_jax_non_monotone_align_callback identity_assignment eye2
               (full [] 7%Z))) [] 0 0
  = cell (fst (_jax_non_monotone_align_callback identity_assignment eye2
                 (full [] 2%Z))) [] 0 0.
Proof.
  refine (proj2 (lengths_act_clamped identity_assignment eye2
                   (full [] 7%Z) (full [] 2%Z) [] _ _) 0 0 _ _);
    [reflexivity | reflexivity | simpl; lia | simpl; lia].
Defined.

(** * The score of the argmax *)

Lemma Qsum_map_ext {A : Type} (f g : A -> Q) (l : list A) :
  (forall x, In x l -> (f x == g x)%Q) ->
  (Qsum (map f l) == Qsum (map g l))%Q.
Proof.
  induction l as [|x l IH]; simpl; intros H; [reflexivity|].
  rewrite (H x (or_introl eq_refl)), IH by auto. reflexivity.
Qed.

Lemma Qsum_map_plus {A : Type} (f g : A -> Q) (l : list A) :
  (Qsum (map (fun x => f x + g x) l) == Qsum (map f l) + Qsum (map g l))%Q.
Proof.
  induction l as [|x l IH]; simpl; [reflexivity|].
  rewrite IH. ring.
Qed.

Lemma Qsum_map_zero {A : Type} (f : A -> Q) (l : list A) :
  (forall x, In x l -> (f x == 0)%Q) -> (Qsum (map f l) == 0)%Q.
Proof.
  induction l as [|x l IH]; simpl; intros H; [reflexivity|].
  rewrite (H x (or_introl eq_refl)), IH by auto. ring.
Qed.

(** A sum against the indicator of one position picks that position. *)
Lemma Qsum_indicator (x : nat -> Q) (l : list nat) (r : nat) :
  NoDup l -> In r l ->
  (Qsum (map (fun i => Q_of_bool (i =? r) * x i) l) == x r)%Q.
Proof.
  induction l as [|a l IH]; simpl; intros Hnd Hin; [contradiction|].
  apply NoDup_cons_iff in Hnd as [Ha Hnd].
  destruct Hin as [->|Hin].
  - rewrite Nat.eqb_refl. simpl.
    rewrite Qsum_map_zero.
    + ring.
    + intros i Hi. destruct (Nat.eqb_spec i r) as [->|_];
        [contradiction | simpl; ring].
  - destruct (Nat.eqb_spec a r) as [->|_]; [contradiction|].
    simpl. rewrite IH by assumption. ring.
Qed.

Lemma Qsum_indicator_seq (x : nat -> Q) (n r : nat) :
  r < n ->
  (Qsum (map (fun i => Q_of_bool (i =? r) * x i) (seq 0 n)) == x r)%Q.
Proof.
  intros H. apply Qsum_indicator; [apply seq_NoDup | apply in_seq; lia].
Qed.

Lemma Q_of_nat_plus (a b : nat) :
  (Q_of_nat (a + b) == Q_of_nat a + Q_of_nat b)%Q.
Proof.
  unfold Q_of_nat. rewrite Nat2Z.inj_add, inject_Z_plus. reflexivity.
Qed.

Lemma count_pair_cons (i j r c : nat) (l : list (nat * nat)) :
  count_pair i j ((r, c) :: l)
  = (if (i =? r) && (j =? c) then 1 else 0) + count_pair i j l.
Proof.
  unfold count_pair, count_true. simpl.
  destruct ((i =? r) && (j =? c)); reflexivity.
Qed.

(** Weighting the cells of an [n] by [n] grid by how often an assignment
    hits them sums the weights along the assignment. *)
Lemma Qsum_count_pair (w : nat -> nat -> Q) (n : nat) (l : list (nat * nat)) :
  (forall p, In p l -> fst p < n /\ snd p < n) ->
  (Qsum (map (fun i =>
           Qsum (map (fun j => Q_of_nat (count_pair i j l) * w i j) (seq 0 n)))
         (seq 0 n))
   == Qsum (map (fun p => w (fst p) (snd p)) l))%Q.
Proof.
  induction l as [|[r c] l IH]; intros Hin.
  - simpl. apply Qsum_map_zero. intros i _.
    apply Qsum_map_zero. intros j _. unfold count_pair, Q_of_nat. simpl. ring.
  - destruct (Hin (r, c) (or_introl eq_refl)) as [Hr Hc]. simpl in Hr, Hc.
    simpl map at 3. simpl Qsum at 3.
    rewrite <- IH by (intros p Hp; apply Hin; right; exact Hp).
    rewrite <- (Qsum_indicator_seq (fun i => w i c) n r Hr).
    rewrite <- Qsum_map_plus.
    apply Qsum_map_ext. intros i Hi.
    rewrite <- (Qsum_indicator_seq
                  (fun j => Q_of_bool (i =? r) * w i j) n c Hc)%Q.
    rewrite <- Qsum_map_plus.
    apply Qsum_map_ext. intros j Hj.
    rewrite count_pair_cons, Q_of_nat_plus.
    destruct (i =? r), (j =? c); unfold Q_of_nat; simpl; ring.
Qed.

Lemma einsum_callback (solver : list (list weight) -> list nat * list nat)
    (lp : grid_array Q) (lens : batch_array Z) (b : index) :
  nrows lp = ncols lp ->
  (forall p,
     In p (combine (fst (solver (matrix_at (masked_log_potentials lp lens) b)))
                   (snd (solver (matrix_at (masked_log_potentials lp lens) b)))) ->
     fst p < ncols lp /\ snd p < ncols lp) ->
  (elt (einsum (fst (_jax_non_monotone_align_callback solver lp lens)) lp) b
   == matched_score lp b (elt lens b)
        (combine (fst (solver (matrix_at (masked_log_potentials lp lens) b)))
                 (snd (solver (matrix_at (masked_log_potentials lp lens) b)))))%Q.
Proof.
  intros Hsq Hrange.
  pose proof (callback_cell solver lp lens b) as Hcell.
  unfold einsum, matched_score.
  remember (fst (_jax_non_monotone_align_callback solver lp lens)) as out
    eqn:Eout.
  assert (Hr : nrows out = ncols lp) by (subst out; simpl; exact Hsq).
  assert (Hc : ncols out = ncols lp) by (subst out; reflexivity).
  clear Eout. cbn [elt]. rewrite Hr, Hc.
  rewrite <- (Qsum_count_pair
                (fun i j => Q_of_bool (valid_cell (elt lens b) i j)
                            * cell lp b i j)%Q (ncols lp)) by exact Hrange.
  apply Qsum_map_ext. intros i Hi. apply in_seq_lt in Hi.
  apply Qsum_map_ext. intros j Hj. apply in_seq_lt in Hj.
  rewrite Hcell by assumption. ring.
Qed.

(** The unnormalized log-probability of the non-monotone argmax is the
    total log-potential of the cells the solver matched inside the valid
    block, whenever the solver's indices lie in the matrix. *)
Theorem score_of_argmax_is_matched_score {Key kwargs : Type}
    {engine : MonotoneEngine Key kwargs}
    (solver : list (list weight) -> list nat * list nat)
    (lp : grid_array Q) (lr lc : option (batch_array Z)) (crf : AlignmentCRF)
    (kw : kwargs) (b : index) :
  __init__ lp lr lc non_monotone_one_to_one = Ok crf ->
  (forall p,
     In p (combine
             (fst (solver (matrix_at (masked_log_potentials
                                        (_log_potentials crf) (_lengths crf)) b)))
             (snd (solver (matrix_at (masked_log_potentials
                                        (_log_potentials crf) (_lengths crf)) b)))) ->
     fst p < ncols lp /\ snd p < ncols lp) ->
  exists a s,
    argmax solver crf kw = Ok a
    /\ unnormalized_log_prob crf (VGrid a) kw = Ok s
    /\ (elt s b
        == matched_score lp b (elt (_lengths crf) b)
             (combine
                (fst (solver (matrix_at (masked_log_potentials
                                           (_log_potentials crf) (_lengths crf)) b)))
                (snd (solver (matrix_at (masked_log_potentials
                                           (_log_potentials crf) (_lengths crf)) b)))))%Q.
Proof.
  intros H Hrange.
  apply init_ok_inv in H as (Hlp & Hty & _ & [(_ & _ & _ & Hsq)|(C & _)]);
    [|contradiction].
  rewrite (argmax_non_monotone solver crf kw Hty).
  unfold unnormalized_log_prob, is_non_monotone.
  rewrite Hty, String.eqb_refl.
  do 2 eexists. split; [reflexivity|]. split; [reflexivity|].
  rewrite Hlp in *. apply einsum_callback; assumption.
Qed.

Lemma score_of_argmax_is_matched_score_witness :
  exists a s,
    argmax (engine := refusing_engine) identity_assignment eye2_crf tt = Ok a
    /\ unnormalized_log_prob (engine := refusing_engine) eye2_crf (VGrid a) tt
       = Ok s
    /\ (elt s [] == 2)%Q.
Proof.
  destruct (score_of_argmax_is_matched_score (engine := refusing_engine)
              identity_assignment eye2 None None eye2_crf tt [] eq_refl)
    as (a & s & Ha & Hs & Hv).
  - intros p Hp. simpl in Hp.
    destruct Hp as [<-|[<-|[]]]; simpl; lia.
  - exists a, s. split; [exact Ha|]. split; [exact Hs|].
    rewrite Hv. reflexivity.
Defined.

(** * The argmax maximises the score *)

Lemma finite_part_masked (lp : grid_array Q) (lens : batch_array Z)
    (b : index) (i j : nat) :
  (finite_part (cell (masked_log_potentials lp lens) b i j)
   == Q_of_bool (valid_cell (elt lens b) i j) * cell lp b i j)%Q.
Proof.
  rewrite masked_cell. unfold valid_cell.
  destruct (Z.leb_spec (elt lens b) (Z.of_nat j)),
           (Nat.eqb_spec i j),
           (Z.ltb_spec (Z.of_nat i) (elt lens b)),
           (Z.ltb_spec (Z.of_nat j) (elt lens b));
    simpl; try ring; lia.
Qed.

Lemma omega_masked_in_block (lp : grid_array Q) (lens : batch_array Z)
    (b : index) (i j : nat) :
  stays_in_block (elt lens b) i j ->
  omega (cell (masked_log_potentials lp lens) b i j) = row_bound (elt lens b) i.
Proof.
  rewrite masked_cell. unfold row_bound, stays_in_block. intros [H1 H2].
  destruct (Z.leb_spec (elt lens b) (Z.of_nat j)),
           (Nat.eqb_spec i j),
           (Z.ltb_spec (Z.of_nat i) (elt lens b)),
           (Z.ltb_spec (Z.of_nat j) (elt lens b)),
           (Z.leb_spec (elt lens b) (Z.of_nat i)); simpl; lia.
Qed.

Lemma matching_in_range (n : nat) (rows cols : list nat) :
  perfect_matching n (rows, cols) ->
  forall p, In p (combine rows cols) -> fst p < n /\ snd p < n.
Proof.
  intros [Hr Hc] [r c] Hp. simpl in *. split; apply in_seq_lt.
  - apply (Permutation_in _ Hr). eapply in_combine_l; eauto.
  - apply (Permutation_in _ Hc). eapply in_combine_r; eauto.
Qed.

Lemma total_finite_matched (lp : grid_array Q) (lens : batch_array Z)
    (b : index) (rows cols : list nat) :
  nrows lp = ncols lp ->
  (forall p, In p (combine rows cols) -> fst p < ncols lp /\ snd p < ncols lp) ->
  (total_finite (matrix_at (masked_log_potentials lp lens) b) rows cols
   == matched_score lp b (elt lens b) (combine rows cols))%Q.
Proof.
  intros Hsq Hrange. unfold total_finite, matched_score.
  apply Qsum_map_ext. intros p Hp. destruct (Hrange p Hp) as [H1 H2].
  rewrite entry_matrix_at by (simpl; lia).
  apply finite_part_masked.
Qed.

Lemma total_omega_in_block (lp : grid_array Q) (lens : batch_array Z)
    (b : index) (rows cols : list nat) :
  nrows lp = ncols lp ->
  perfect_matching (ncols lp) (rows, cols) ->
  (forall i j, In (i, j) (combine rows cols) -> stays_in_block (elt lens b) i j) ->
  total_omega (matrix_at (masked_log_potentials lp lens) b) rows cols
  = Zsum (map (row_bound (elt lens b)) (seq 0 (ncols lp))).
Proof.
  intros Hsq Hpm Hblock.
  pose proof (matching_in_range _ _ _ Hpm) as Hrange.
  destruct Hpm as [Hr Hc]. simpl in Hr, Hc.
  pose proof (Permutation_seq_length _ _ Hr) as Lr.
  pose proof (Permutation_seq_length _ _ Hc) as Lc.
  unfold total_omega.
  rewrite (map_ext_in _ (fun p => row_bound (elt lens b) (fst p))).
  - rewrite <- (map_map fst (row_bound (elt lens b))), map_fst_combine by lia.
    apply Zsum_Permutation, Permutation_map, Hr.
  - intros [i j] Hp. destruct (Hrange _ Hp) as [H1 H2]. simpl in *.
    rewrite entry_matrix_at by (simpl; lia).
    apply omega_masked_in_block, Hblock, Hp.
Qed.

(** The non-monotone argmax is a maximiser: when the solver returns a
    maximum-weight matching, no alignment built in the same way from a
    perfect matching that keeps padding positions on the diagonal and valid
    rows in valid columns has a larger unnormalized log-probability. *)
Theorem argmax_maximises_score {Key kwargs : Type}
    {engine : MonotoneEngine Key kwargs}
    (solver other : list (list weight) -> list nat * list nat)
    (lp : grid_array Q) (lr lc : option (batch_array Z)) (crf : AlignmentCRF)
    (kw : kwargs) (b : index) :
  __init__ lp lr lc non_monotone_one_to_one = Ok crf ->
  maximum_weight_matching
    (matrix_at (masked_log_potentials (_log_potentials crf) (_lengths crf)) b)
    (solver
       (matrix_at (masked_log_potentials (_log_potentials crf) (_lengths crf)) b)) ->
  perfect_matching (ncols lp)
    (other
       (matrix_at (masked_log_potentials (_log_potentials crf) (_lengths crf)) b)) ->
  (forall i j,
     In (i, j)
        (combine
           (fst (other (matrix_at (masked_log_potentials
                                     (_log_potentials crf) (_lengths crf)) b)))
           (snd (other (matrix_at (masked_log_potentials
                                     (_log_potentials crf) (_lengths crf)) b)))) ->
     stays_in_block (elt (_lengths crf) b) i j) ->
  exists a a' s s',
    argmax solver crf kw = Ok a
    /\ argmax other crf kw = Ok a'
    /\ unnormalized_log_prob crf (VGrid a) kw = Ok s
    /\ unnormalized_log_prob crf (VGrid a') kw = Ok s'
    /\ (elt s' b <= elt s b)%Q.
Proof.
  intros H Hmax Hpm Hblock'.
  apply init_ok_inv in H as (Hlp & Hty & _ & [(_ & _ & _ & Hsq)|(C & _)]);
    [|contradiction].
  rewrite !(argmax_non_monotone _ crf kw Hty).
  unfold unnormalized_log_prob, is_non_monotone.
  rewrite Hty, String.eqb_refl.
  do 4 eexists. do 4 (split; [reflexivity|]).
  rewrite Hlp in *.
  set (M := matrix_at (masked_log_potentials lp (_lengths crf)) b) in *.
  pose proof (optimal_matching_stays_in_block lp (_lengths crf) b) as Hstay.
  fold M in Hstay.
  destruct (solver M) as [rows cols] eqn:Es.
  destruct (other M) as [rows' cols'] eqn:Eo.
  specialize (Hstay rows cols Hsq Hmax).
  assert (Hpm0 : perfect_matching (ncols lp) (rows, cols)).
  { destruct Hmax as (Hr & Hc & _). unfold M in Hr, Hc.
    rewrite matrix_at_length in Hr, Hc. simpl in Hr, Hc.
    rewrite Hsq in Hr, Hc. split; assumption. }
  assert (Hle : weight_le M rows' cols' rows cols).
  { destruct Hmax as (_ & _ & Hopt). destruct Hpm as [Hr' Hc'].
    apply Hopt; unfold M; rewrite matrix_at_length; simpl; rewrite Hsq;
      assumption. }
  rewrite !einsum_callback; try assumption; fold M; rewrite ?Es, ?Eo;
    try (apply matching_in_range; assumption).
  simpl fst. simpl snd.
  rewrite <- !total_finite_matched
    by (try assumption; apply matching_in_range; assumption).
  fold M.
  destruct Hle as [Hlt|[_ Hfin]]; [|exact Hfin].
  exfalso. unfold M in Hlt.
  rewrite (total_omega_in_block lp (_lengths crf) b rows cols Hsq Hpm0 Hstay),
          (total_omega_in_block lp (_lengths crf) b rows' cols' Hsq Hpm Hblock')
    in Hlt.
  lia.
Qed.

(** On [[1,0],[0,1]] the identity assignment scores at least as much as
    the swap. *)
Lemma argmax_maximises_score_witness :
  exists a a' s s',
    argmax (engine := refusing_engine) identity_assignment eye2_crf tt = Ok a
    /\ argmax (engine := refusing_engine) (fun _ => ([0; 1], [1; 0]))
         eye2_crf tt = Ok a'
    /\ unnormalized_log_prob (engine := refusing_engine) eye2_crf (VGrid a) tt
       = Ok s
    /\ unnormalized_log_prob (engine := refusing_engine) eye2_crf (VGrid a') tt
       = Ok s'
    /\ (elt s' [] <= elt s [])%Q.
Proof.
  refine (argmax_maximises_score (engine := refusing_engine)
            identity_assignment (fun _ => ([0; 1], [1; 0]))
            eye2 None None eye2_crf tt [] eq_refl _ _ _).
  - split; [apply Permutation_refl|]. split; [apply Permutation_refl|].
    intros rows' cols' Hr Hc.
    apply two_element_permutations in Hr, Hc.
    destruct Hr as [-> | ->], Hc as [-> | ->];
      first [ left; reflexivity
            | right; split; [reflexivity | vm_compute; discriminate] ].
  - split; simpl; [apply Permutation_refl | apply perm_swap].
  - intros i j Hin. simpl in Hin.
    destruct Hin as [E|[E|[]]]; injection E as <- <-;
      split; simpl; intros; lia.
Defined.

(** * How many pairs the argmax aligns *)

Lemma Qsum_Permutation (l l' : list Q) :
  Permutation l l' -> (Qsum l == Qsum l')%Q.
Proof.
  induction 1; simpl.
  - reflexivity.
  - rewrite IHPermutation. reflexivity.
  - ring.
  - rewrite IHPermutation1. exact IHPermutation2.
Qed.

Lemma count_below_length (L : Z) (n : nat) :
  (Qsum (map (fun k => Q_of_bool (Z.of_nat k <? L)%Z) (seq 0 n))
   == inject_Z (clamp L n))%Q.
Proof.
  induction n as [|n IH].
  - simpl. unfold clamp. replace (Z.max 0 (Z.min L (Z.of_nat 0))) with 0%Z by lia.
    reflexivity.
  - rewrite seq_S, map_app, Qsum_app, IH. cbn [map Qsum fold_right Nat.add].
    assert (E : clamp L (S n)
                = (clamp L n + (if (Z.of_nat n <? L)%Z then 1 else 0))%Z).
    { unfold clamp. destruct (Z.ltb_spec (Z.of_nat n) L); lia. }
    rewrite E, inject_Z_plus.
    destruct (Z.of_nat n <? L)%Z; simpl; ring.
Qed.

(** When the solver returns a maximum-weight matching, the entries of the
    non-monotone argmax at a batch element sum to the declared length
    clamped to [0 .. n]: that many pairs are aligned, no more and no
    fewer. *)
Theorem argmax_aligns_clamped_length {Key kwargs : Type}
    {engine : MonotoneEngine Key kwargs}
    (solver : list (list weight) -> list nat * list nat)
    (lp : grid_array Q) (lr lc : option (batch_array Z)) (crf : AlignmentCRF)
    (kw : kwargs) (b : index) :
  __init__ lp lr lc non_monotone_one_to_one = Ok crf ->
  maximum_weight_matching
    (matrix_at (masked_log_potentials (_log_potentials crf) (_lengths crf)) b)
    (solver
       (matrix_at (masked_log_potentials (_log_potentials crf) (_lengths crf)) b)) ->
  exists out,
    argmax solver crf kw = Ok out
    /\ (total_mass out b == inject_Z (clamp (elt (_lengths crf) b) (ncols lp)))%Q.
Proof.
  intros H Hmax.
  apply init_ok_inv in H as (Hlp & Hty & _ & [(_ & _ & _ & Hsq)|(C & _)]);
    [|contradiction].
  rewrite (argmax_non_monotone solver crf kw Hty).
  eexists. split; [reflexivity|].
  rewrite Hlp in *.
  pose proof (callback_cell solver lp (_lengths crf) b) as Hcell.
  unfold total_mass.
  remember (fst (_jax_non_monotone_align_callback solver lp (_lengths crf)))
    as out eqn:Eout.
  assert (Hr : nrows out = ncols lp) by (subst out; simpl; exact Hsq).
  assert (Hc : ncols out = ncols lp) by (subst out; reflexivity).
  clear Eout. rewrite Hr, Hc.
  set (L := elt (_lengths crf) b) in *.
  set (M := matrix_at (masked_log_potentials lp (_lengths crf)) b) in *.
  pose proof (optimal_matching_stays_in_block lp (_lengths crf) b) as Hstay.
  fold M L in Hstay.
  destruct (solver M) as [rows cols] eqn:Es.
  specialize (Hstay rows cols Hsq Hmax).
  simpl fst in Hcell. simpl snd in Hcell.
  assert (Hpm : perfect_matching (ncols lp) (rows, cols)).
  { destruct Hmax as (Hr0 & Hc0 & _). unfold M in Hr0, Hc0.
    rewrite matrix_at_length in Hr0, Hc0. simpl in Hr0, Hc0.
    rewrite Hsq in Hr0, Hc0. split; assumption. }
  pose proof (matching_in_range _ _ _ Hpm) as Hrange.
  destruct Hpm as [Hperm_r Hperm_c]. simpl in Hperm_r, Hperm_c.
  pose proof (Permutation_seq_length _ _ Hperm_r) as Lr.
  pose proof (Permutation_seq_length _ _ Hperm_c) as Lc.
  rewrite <- count_below_length.
  rewrite <- (Qsum_Permutation _ _
                (Permutation_map (fun k => Q_of_bool (Z.of_nat k <? L)%Z)
                   Hperm_r)).
  rewrite <- (map_fst_combine rows cols) at 1 by lia.
  rewrite map_map.
  rewrite (Qsum_map_ext
             (fun p => Q_of_bool (Z.of_nat (fst p) <? L)%Z)
             (fun p => (Q_of_bool (valid_cell L (fst p) (snd p)) * 1)%Q)).
  - rewrite <- (Qsum_count_pair
                  (fun i j => Q_of_bool (valid_cell L i j) * 1)%Q (ncols lp))
      by exact Hrange.
    apply Qsum_map_ext. intros i Hi. apply in_seq_lt in Hi.
    apply Qsum_map_ext. intros j Hj. apply in_seq_lt in Hj.
    rewrite Hcell by assumption. ring.
  - intros [i j] Hp. simpl. destruct (Hstay i j Hp) as [H1 H2].
    unfold valid_cell.
    destruct (Z.ltb_spec (Z.of_nat i) L) as [Hi|Hi].
    + specialize (H2 Hi).
      destruct (Z.ltb_spec (Z.of_nat j) L); [simpl; ring | lia].
    + simpl. ring.
Qed.

Lemma argmax_aligns_clamped_length_witness :
  exists crf out,
    __init__ eye2 (Some (full [] 1%Z)) None non_monotone_one_to_one = Ok crf
    /\ argmax (engine := refusing_engine) identity_assignment crf tt = Ok out
    /\ (total_mass out [] == 1)%Q.
Proof.
  eexists.
  destruct (argmax_aligns_clamped_length
              (engine := refusing_engine) identity_assignment
              eye2 (Some (full [] 1%Z)) None _ tt [] eq_refl)
    as (out & Hout & Hmass).
  - split; [apply Permutation_refl|]. split; [apply Permutation_refl|].
    intros rows' cols' Hr Hc.
    apply two_element_permutations in Hr, Hc.
    destruct Hr as [-> | ->], Hc as [-> | ->];
      first [ left; reflexivity
            | right; split; [reflexivity | vm_compute; discriminate] ].
  - exists out. split; [reflexivity|]. split; [exact Hout|].
    rewrite Hmass. reflexivity.
Defined.

(** * Shapes of a constructed instance *)

(** A constructed instance reports the shape of the log-potentials it was
    given ([batch_shape] followed by [event_shape]), keeps row-lengths that
    were supplied as they are, and, when non-monotone, has a square event
    shape. *)
Theorem init_keeps_shapes_and_lengths (lp : grid_array Q)
    (lr lc : option (batch_array Z)) (ty : string) (crf : AlignmentCRF) :
  __init__ lp lr lc ty = Ok crf ->
  batch_shape crf ++ event_shape crf = shape lp
  /\ (forall l, lr = Some l -> _lengths crf = l)
  /\ (ty = non_monotone_one_to_one ->
      event_shape crf = [ncols lp; ncols lp]).
Proof.
  intros H.
  apply init_ok_inv in H as (Hlp & Hty & Hl & Hcases).
  unfold batch_shape, event_shape, shape. rewrite Hlp.
  split; [reflexivity|]. split.
  - intros l ->. exact Hl.
  - intros E. destruct Hcases as [(_ & _ & _ & Hsq)|(C & _)];
      [rewrite Hsq; reflexivity | contradiction].
Qed.

Lemma init_keeps_shapes_and_lengths_witness :
  exists crf,
    __init__ eye2 (Some (full [] 1%Z)) None non_monotone_one_to_one = Ok crf
    /\ batch_shape crf ++ event_shape crf = [2; 2]
    /\ _lengths crf = full [] 1%Z.
Proof.
  eexists. split; [reflexivity|].
  destruct (init_keeps_shapes_and_lengths eye2 (Some (full [] 1%Z)) None
              non_monotone_one_to_one _ eq_refl) as (Hs & Hl & _).
  split; [exact Hs | exact (Hl _ eq_refl)].
Defined.
